(** * ldapserver: the per-connection session of client.go

    A shallow embedding of [client.serve], [client.close],
    [client.ProcessRequestMessage], [client.cancelMessageID] and
    [responseWriterImpl.Write] as an executable small-step machine.
    Every goroutine of a session (dispatcher, writer, shutdown watch,
    request processors) is a program counter in the state; an [action]
    names the goroutine that runs its next statement, so that a
    schedule is a list of actions and [run] replays it.

    The dispatcher is the one that reads and decodes on its own
    goroutine (the first of the two copies of client.go in
    src/unnamed/part_002); line numbers in the comments are those of
    that file. *)

From stdpp Require Import gmap strings list.

From Stdlib Require Import ZArith.

Local Open Scope Z_scope.

(** ** LDAP messages, as far as the session looks into them *)

Record ExtendedResponse := {
  resultCode : Z;
  diagnosticMessage : string;
  responseName : string
}.

Inductive ProtocolOp :=
| BindRequest (name simple : string)
| UnbindRequest
| SearchRequest (baseObject : string)
| AbandonRequest (target : Z)
| ExtendedRequest (requestName : string)
| OtherRequest (tag : Z)
| BindResponse (code : Z)
| SearchResultEntry (objectName : string)
| SearchResultDone (code : Z)
| OpExtendedResponse (r : ExtendedResponse)
| OtherResponse (tag : Z).

Record LDAPMessage := { messageID : Z; protocolOp : ProtocolOp }.

#[global] Instance ExtendedResponse_eq_dec : EqDecision ExtendedResponse.
Proof. solve_decision. Defined.

#[global] Instance ProtocolOp_eq_dec : EqDecision ProtocolOp.
Proof. solve_decision. Defined.

#[global] Instance LDAPMessage_eq_dec : EqDecision LDAPMessage.
Proof. solve_decision. Defined.

(** Modelled from the spec: the protocol-op constants of the package
    (section 6), whose declarations are not among the sources. *)
Definition LDAPResultUnwillingToPerform : Z := 53.

Definition NoticeOfDisconnection : string := "1.3.6.1.4.1.1466.20036".

Definition NoticeOfStartTLS : string := "1.3.6.1.4.1.1466.20037".

(** Modelled from the spec: [NewExtendedResponse] builds an extended
    response that carries the given result code and nothing else. *)
Definition NewExtendedResponse (code : Z) : ExtendedResponse :=
  {| resultCode := code; diagnosticMessage := ""; responseName := "" |}.

Definition SetDiagnosticMessage (d : string) (r : ExtendedResponse) :=
  {| resultCode := resultCode r; diagnosticMessage := d;
     responseName := responseName r |}.

Definition SetResponseName (n : string) (r : ExtendedResponse) :=
  {| resultCode := resultCode r; diagnosticMessage := diagnosticMessage r;
     responseName := n |}.

(** [ldap.NewLDAPMessageWithProtocolOp]: a message whose id is Go's zero
    value. *)
Definition NewLDAPMessageWithProtocolOp (po : ProtocolOp) : LDAPMessage :=
  {| messageID := 0; protocolOp := po |}.

(** Go's conversion of an [int] to a 32-bit integer: the value modulo
    2^32, read as a signed number. *)
Definition int32 (n : Z) : Z := (n + 2 ^ 31) mod 2 ^ 32 - 2 ^ 31.

#[global] Arguments int32 : simpl never.

(** [LDAPMessage.SetMessageID(ID int)]: the library keeps the id as a
    [MessageID], a 32-bit integer, so the [int] it is given is
    converted. *)
Definition SetMessageID (n : Z) (m : LDAPMessage) : LDAPMessage :=
  {| messageID := int32 n; protocolOp := protocolOp m |}.

(** The message built by the shutdown-watch goroutine (client.go 69-73). *)
Definition shutdownNotice : LDAPMessage :=
  NewLDAPMessageWithProtocolOp
    (OpExtendedResponse
       (SetResponseName NoticeOfDisconnection
          (SetDiagnosticMessage "server is about to stop"
             (NewExtendedResponse LDAPResultUnwillingToPerform)))).

(** ** The session state *)

(** A Go channel used only for closing or for rendezvous. *)
Inductive chan := ChanNil | ChanOpen | ChanClosed.

(** What one turn of the read loop gets from the socket. *)
Inductive read_result :=
| ReadMessage (m : LDAPMessage)
| ReadDecodeError
| ReadError.

(** Program counter of [serve] followed by the deferred [close]. *)
Inductive dispatcher_pc :=
| DStart                (* client.go 44: entry of serve *)
| DLoop                 (* 85: top of the read loop *)
| DInline (tid : nat)   (* 127: inside the inline ProcessRequestMessage *)
| CSignal               (* 151: close(c.closing) *)
| CDeadline             (* 154: c.rwc.SetReadDeadline *)
| CCancel               (* 158-164: the cancel loop and clear *)
| CJoin                 (* 167: c.wg.Wait() *)
| CCloseQueue           (* 168: close(c.chanOut) *)
| CWaitWriter           (* 171: <-c.writeDone *)
| CCloseSocket          (* 172: c.rwc.Close() *)
| CRelease              (* 175: c.srv.wg.Done() *)
| DDone.

(** Program counter of one activation of [ProcessRequestMessage]. *)
Inductive request_pc :=
| HStart                (* 204-216: before the registration *)
| HServing              (* 232: inside handler.ServeLDAP *)
| HReturned             (* 223-225: the deferred delete is next *)
| HCancel               (* 213: the deferred cancelCtx() is next *)
| HRelease              (* 204: the deferred c.wg.Done() is next *)
| HExit.

(** An activation: its request, whether the dispatcher runs it itself
    (StartTLS) or a goroutine does, and where it stands.  Its index in
    [requests] also names its context and cancel function. *)
Record activation := {
  h_msg : LDAPMessage;
  h_inline : bool;
  h_pc : request_pc
}.

(** The writer goroutine (client.go 56-61). *)
Inductive writer_pc :=
| WIdle                     (* not started *)
| WRecv                     (* 57: receiving from c.chanOut *)
| WWrite (m : LDAPMessage)  (* 58: c.writeMessage(m) *)
| WFinish                   (* 60: close(c.writeDone) *)
| WExit.

(** The shutdown-watch goroutine (client.go 64-83). *)
Inductive watch_pc :=
| SIdle                 (* not started *)
| SSelect               (* 66: the select *)
| SJoin                 (* 68: c.wg.Add(1) *)
| SSend                 (* 69-75: build the notice, c.chanOut <- m *)
| SRelease              (* 76: c.wg.Done() *)
| SWakeup               (* 77: c.rwc.SetReadDeadline *)
| SExitShutdown         (* 78: return *)
| SExitClosing.         (* 80: return *)

(** What the logs record. *)
Inductive event :=
| EvShutdown                  (* Shutdown closed chDone *)
| EvReceived (m : LDAPMessage)  (* the dispatcher decoded m *)
| EvWatchJoin                 (* the watch goroutine's wg.Add(1) *)
| EvHandlerDone (tid : nat)   (* an activation's wg.Done() *)
| EvClosingSignal
| EvReaderWakeup
| EvCancelAll
| EvJoined
| EvQueueClosed
| EvWriteComplete
| EvSocketClosed
| EvServerReleased.

(** Who sent a message on the queue. *)
Inductive origin := FromWatch | FromHandler (tid : nat).

#[global] Instance chan_eq_dec : EqDecision chan.
Proof. solve_decision. Defined.

#[global] Instance dispatcher_pc_eq_dec : EqDecision dispatcher_pc.
Proof. solve_decision. Defined.

#[global] Instance request_pc_eq_dec : EqDecision request_pc.
Proof. solve_decision. Defined.

#[global] Instance event_eq_dec : EqDecision event.
Proof. solve_decision. Defined.

#[global] Instance origin_eq_dec : EqDecision origin.
Proof. solve_decision. Defined.

(** The [client] struct together with what the session touches of its
    server ([chDone], [wg], the result of [HandleConnection]), the
    goroutines' program counters and the observation logs.  Lists that
    log something grow at the head: the newest entry comes first. *)
Record state := {
  handleConnection : bool;            (* HandleConnection returns a handler *)
  input : list read_result;           (* what the socket will deliver *)
  dpc : dispatcher_pc;                (* serve / close *)
  closing : chan;                     (* c.closing *)
  chanOut : chan;                     (* c.chanOut *)
  writeDone : chan;                   (* c.writeDone *)
  wg : Z;                             (* c.wg *)
  requestCancel : option (gmap Z nat);  (* c.requestCancel, None when nil *)
  cancelled : gset nat;               (* contexts whose cancel was called *)
  requests : list activation;         (* calls of ProcessRequestMessage *)
  wpc : writer_pc;                    (* the writer goroutine *)
  spc : watch_pc;                     (* the shutdown-watch goroutine *)
  chDone : bool;                      (* c.srv.chDone is closed *)
  rwc_open : bool;                    (* c.rwc is not closed *)
  readDeadline : bool;                (* a read deadline 1ms ahead is set *)
  srv_wg : Z;                         (* this session's share of c.srv.wg *)
  enq : list (origin * LDAPMessage);  (* log: sends on c.chanOut *)
  wire : list LDAPMessage;            (* log: messages written to c.bw *)
  trace : list event                  (* log: events *)
}.

(** Field updates. *)
Definition set_input v s :=
  {| handleConnection := handleConnection s; input := v; dpc := dpc s;
     closing := closing s; chanOut := chanOut s; writeDone := writeDone s;
     wg := wg s; requestCancel := requestCancel s; cancelled := cancelled s;
     requests := requests s; wpc := wpc s; spc := spc s; chDone := chDone s;
     rwc_open := rwc_open s; readDeadline := readDeadline s;
     srv_wg := srv_wg s; enq := enq s; wire := wire s; trace := trace s |}.

Definition set_dpc v s :=
  {| handleConnection := handleConnection s; input := input s; dpc := v;
     closing := closing s; chanOut := chanOut s; writeDone := writeDone s;
     wg := wg s; requestCancel := requestCancel s; cancelled := cancelled s;
     requests := requests s; wpc := wpc s; spc := spc s; chDone := chDone s;
     rwc_open := rwc_open s; readDeadline := readDeadline s;
     srv_wg := srv_wg s; enq := enq s; wire := wire s; trace := trace s |}.

Definition set_closing v s :=
  {| handleConnection := handleConnection s; input := input s; dpc := dpc s;
     closing := v; chanOut := chanOut s; writeDone := writeDone s;
     wg := wg s; requestCancel := requestCancel s; cancelled := cancelled s;
     requests := requests s; wpc := wpc s; spc := spc s; chDone := chDone s;
     rwc_open := rwc_open s; readDeadline := readDeadline s;
     srv_wg := srv_wg s; enq := enq s; wire := wire s; trace := trace s |}.

Definition set_chanOut v s :=
  {| handleConnection := handleConnection s; input := input s; dpc := dpc s;
     closing := closing s; chanOut := v; writeDone := writeDone s;
     wg := wg s; requestCancel := requestCancel s; cancelled := cancelled s;
     requests := requests s; wpc := wpc s; spc := spc s; chDone := chDone s;
     rwc_open := rwc_open s; readDeadline := readDeadline s;
     srv_wg := srv_wg s; enq := enq s; wire := wire s; trace := trace s |}.

Definition set_writeDone v s :=
  {| handleConnection := handleConnection s; input := input s; dpc := dpc s;
     closing := closing s; chanOut := chanOut s; writeDone := v; wg := wg s;
     requestCancel := requestCancel s; cancelled := cancelled s;
     requests := requests s; wpc := wpc s; spc := spc s; chDone := chDone s;
     rwc_open := rwc_open s; readDeadline := readDeadline s;
     srv_wg := srv_wg s; enq := enq s; wire := wire s; trace := trace s |}.

Definition set_wg v s :=
  {| handleConnection := handleConnection s; input := input s; dpc := dpc s;
     closing := closing s; chanOut := chanOut s; writeDone := writeDone s;
     wg := v; requestCancel := requestCancel s; cancelled := cancelled s;
     requests := requests s; wpc := wpc s; spc := spc s; chDone := chDone s;
     rwc_open := rwc_open s; readDeadline := readDeadline s;
     srv_wg := srv_wg s; enq := enq s; wire := wire s; trace := trace s |}.

Definition set_requestCancel v s :=
  {| handleConnection := handleConnection s; input := input s; dpc := dpc s;
     closing := closing s; chanOut := chanOut s; writeDone := writeDone s;
     wg := wg s; requestCancel := v; cancelled := cancelled s;
     requests := requests s; wpc := wpc s; spc := spc s; chDone := chDone s;
     rwc_open := rwc_open s; readDeadline := readDeadline s;
     srv_wg := srv_wg s; enq := enq s; wire := wire s; trace := trace s |}.

Definition set_cancelled v s :=
  {| handleConnection := handleConnection s; input := input s; dpc := dpc s;
     closing := closing s; chanOut := chanOut s; writeDone := writeDone s;
     wg := wg s; requestCancel := requestCancel s; cancelled := v;
     requests := requests s; wpc := wpc s; spc := spc s; chDone := chDone s;
     rwc_open := rwc_open s; readDeadline := readDeadline s;
     srv_wg := srv_wg s; enq := enq s; wire := wire s; trace := trace s |}.

Definition set_requests v s :=
  {| handleConnection := handleConnection s; input := input s; dpc := dpc s;
     closing := closing s; chanOut := chanOut s; writeDone := writeDone s;
     wg := wg s; requestCancel := requestCancel s; cancelled := cancelled s;
     requests := v; wpc := wpc s; spc := spc s; chDone := chDone s;
     rwc_open := rwc_open s; readDeadline := readDeadline s;
     srv_wg := srv_wg s; enq := enq s; wire := wire s; trace := trace s |}.

Definition set_wpc v s :=
  {| handleConnection := handleConnection s; input := input s; dpc := dpc s;
     closing := closing s; chanOut := chanOut s; writeDone := writeDone s;
     wg := wg s; requestCancel := requestCancel s; cancelled := cancelled s;
     requests := requests s; wpc := v; spc := spc s; chDone := chDone s;
     rwc_open := rwc_open s; readDeadline := readDeadline s;
     srv_wg := srv_wg s; enq := enq s; wire := wire s; trace := trace s |}.

Definition set_spc v s :=
  {| handleConnection := handleConnection s; input := input s; dpc := dpc s;
     closing := closing s; chanOut := chanOut s; writeDone := writeDone s;
     wg := wg s; requestCancel := requestCancel s; cancelled := cancelled s;
     requests := requests s; wpc := wpc s; spc := v; chDone := chDone s;
     rwc_open := rwc_open s; readDeadline := readDeadline s;
     srv_wg := srv_wg s; enq := enq s; wire := wire s; trace := trace s |}.

Definition set_chDone v s :=
  {| handleConnection := handleConnection s; input := input s; dpc := dpc s;
     closing := closing s; chanOut := chanOut s; writeDone := writeDone s;
     wg := wg s; requestCancel := requestCancel s; cancelled := cancelled s;
     requests := requests s; wpc := wpc s; spc := spc s; chDone := v;
     rwc_open := rwc_open s; readDeadline := readDeadline s;
     srv_wg := srv_wg s; enq := enq s; wire := wire s; trace := trace s |}.

Definition set_rwc_open v s :=
  {| handleConnection := handleConnection s; input := input s; dpc := dpc s;
     closing := closing s; chanOut := chanOut s; writeDone := writeDone s;
     wg := wg s; requestCancel := requestCancel s; cancelled := cancelled s;
     requests := requests s; wpc := wpc s; spc := spc s; chDone := chDone s;
     rwc_open := v; readDeadline := readDeadline s; srv_wg := srv_wg s;
     enq := enq s; wire := wire s; trace := trace s |}.

Definition set_readDeadline v s :=
  {| handleConnection := handleConnection s; input := input s; dpc := dpc s;
     closing := closing s; chanOut := chanOut s; writeDone := writeDone s;
     wg := wg s; requestCancel := requestCancel s; cancelled := cancelled s;
     requests := requests s; wpc := wpc s; spc := spc s; chDone := chDone s;
     rwc_open := rwc_open s; readDeadline := v; srv_wg := srv_wg s;
     enq := enq s; wire := wire s; trace := trace s |}.

Definition set_srv_wg v s :=
  {| handleConnection := handleConnection s; input := input s; dpc := dpc s;
     closing := closing s; chanOut := chanOut s; writeDone := writeDone s;
     wg := wg s; requestCancel := requestCancel s; cancelled := cancelled s;
     requests := requests s; wpc := wpc s; spc := spc s; chDone := chDone s;
     rwc_open := rwc_open s; readDeadline := readDeadline s; srv_wg := v;
     enq := enq s; wire := wire s; trace := trace s |}.

Definition set_enq v s :=
  {| handleConnection := handleConnection s; input := input s; dpc := dpc s;
     closing := closing s; chanOut := chanOut s; writeDone := writeDone s;
     wg := wg s; requestCancel := requestCancel s; cancelled := cancelled s;
     requests := requests s; wpc := wpc s; spc := spc s; chDone := chDone s;
     rwc_open := rwc_open s; readDeadline := readDeadline s;
     srv_wg := srv_wg s; enq := v; wire := wire s; trace := trace s |}.

Definition set_wire v s :=
  {| handleConnection := handleConnection s; input := input s; dpc := dpc s;
     closing := closing s; chanOut := chanOut s; writeDone := writeDone s;
     wg := wg s; requestCancel := requestCancel s; cancelled := cancelled s;
     requests := requests s; wpc := wpc s; spc := spc s; chDone := chDone s;
     rwc_open := rwc_open s; readDeadline := readDeadline s;
     srv_wg := srv_wg s; enq := enq s; wire := v; trace := trace s |}.

Definition set_trace v s :=
  {| handleConnection := handleConnection s; input := input s; dpc := dpc s;
     closing := closing s; chanOut := chanOut s; writeDone := writeDone s;
     wg := wg s; requestCancel := requestCancel s; cancelled := cancelled s;
     requests := requests s; wpc := wpc s; spc := spc s; chDone := chDone s;
     rwc_open := rwc_open s; readDeadline := readDeadline s;
     srv_wg := srv_wg s; enq := enq s; wire := wire s; trace := v |}.

Definition log (e : event) (s : state) : state := set_trace (e :: trace s) s.

(** The client as [Server.Serve] builds it before [go cli.serve()]:
    every channel and the map are nil, the server's wait group already
    counts this session. *)
Definition init (handler : bool) (inp : list read_result) : state :=
  {| handleConnection := handler; input := inp; dpc := DStart;
     closing := ChanNil; chanOut := ChanNil; writeDone := ChanNil;
     wg := 0; requestCancel := None; cancelled := ∅; requests := [];
     wpc := WIdle; spc := SIdle; chDone := false; rwc_open := true;
     readDeadline := false; srv_wg := 1; enq := []; wire := [];
     trace := [] |}.

(** What a statement does to the machine: it runs, it blocks (the
    goroutine stays where it is), or it panics and takes the process
    down. *)
Inductive outcome :=
| Next (s : state)
| Blocked
| Panic (reason : string).

(** ** Channels and the wait group *)

(** [close(ch)]. *)
Definition chan_close (c : chan) : chan + string :=
  match c with
  | ChanNil => inr "close of nil channel"
  | ChanClosed => inr "close of closed channel"
  | ChanOpen => inl ChanClosed
  end%string.

(** [c.chanOut <- m]: the queue is unbuffered, so a send goes through
    when the writer goroutine stands at its receive, and hands it the
    message.  A send on a nil channel blocks for ever; a send on a closed
    channel panics. *)
Definition chan_send (who : origin) (m : LDAPMessage) (s : state) : outcome :=
  match chanOut s with
  | ChanNil => Blocked
  | ChanClosed => Panic "send on closed channel"
  | ChanOpen =>
      match wpc s with
      | WRecv => Next (set_enq ((who, m) :: enq s) (set_wpc (WWrite m) s))
      | _ => Blocked
      end
  end.

(** [c.wg.Done()]. *)
Definition wg_done (s : state) : outcome :=
  if decide (wg s ≤ 0) then Panic "sync: negative WaitGroup counter"
  else Next (set_wg (wg s - 1) s).

(** ** The request registry *)

(** Go reads a nil map as an empty one. *)
Definition registry (s : state) : gmap Z nat := default ∅ (requestCancel s).

(** client.go 216-221: create the map if it is nil, store the cancel
    function under the message id. *)
Definition registerCancel (id : Z) (ctx : nat) (s : state) : state :=
  set_requestCancel (Some (<[id := ctx]> (registry s))) s.

(** client.go 222-226, the deferred [delete(c.requestCancel, messageID)];
    deleting from a nil map does nothing. *)
Definition deregisterCancel (id : Z) (s : state) : state :=
  set_requestCancel (delete id <$> requestCancel s) s.

(** Calling a [context.CancelFunc]: it marks its context done; a second
    call changes nothing. *)
Definition cancelCtx (ctx : nat) (s : state) : state :=
  set_cancelled ({[ctx]} ∪ cancelled s) s.

(** client.go 235-242. *)
Definition cancelMessageID (id : Z) (s : state) : state :=
  match registry s !! id with
  | Some ctx => deregisterCancel id (cancelCtx ctx s)
  | None => s
  end.

(** client.go 158-164: cancel every registered request, then
    [clear(c.requestCancel)], which leaves a nil map nil. *)
Definition cancelAll (s : state) : state :=
  set_requestCancel ((λ _, ∅) <$> requestCancel s)
    (set_cancelled (map_img (registry s) ∪ cancelled s) s).

(** ** The response writer *)

Record responseWriterImpl := { w_messageID : Z }.

(** The message [Write] puts together (client.go 198-199). *)
Definition wrap (w : responseWriterImpl) (po : ProtocolOp) : LDAPMessage :=
  SetMessageID (w_messageID w) (NewLDAPMessageWithProtocolOp po).

(** [responseWriterImpl.Write]; the writer's channel is the session's
    [chanOut] (client.go 229). *)
Definition Write (who : nat) (w : responseWriterImpl) (po : ProtocolOp)
    (s : state) : outcome :=
  chan_send (FromHandler who) (wrap w po) s.

(** ** The dispatcher: [serve], then the deferred [close] *)

(** [c.wg.Wait()] (client.go 167) is taken to return once the counter
    is zero.  The checks [sync.WaitGroup] makes of its own use (an
    [Add] that lands between the release of a parked [Wait] and its
    return makes that [Wait] panic) belong to the library and are not
    modelled; in a session only the watch goroutine's [wg.Add(1)] can
    run into them. *)

Definition spawn (inline : bool) (m : LDAPMessage) (s : state) : state :=
  set_requests (requests s ++ [ {| h_msg := m; h_inline := inline; h_pc := HStart |} ])
    (set_wg (wg s + 1) s).

(** The type switch of client.go 117-138 on a decoded message. *)
Definition dispatch (m : LDAPMessage) (s : state) : state :=
  match protocolOp m with
  | AbandonRequest req => cancelMessageID req s
  | ExtendedRequest name =>
      if decide (name = NoticeOfStartTLS)
      then set_dpc (DInline (length (requests s))) (spawn true m s)
      else spawn false m s
  | UnbindRequest => set_dpc CSignal s
  | _ => spawn false m s
  end.

Definition dispatcher_step (s : state) : outcome :=
  match dpc s with
  | DStart =>
      let s := set_closing ChanOpen s in
      if handleConnection s
      then Next (set_dpc DLoop (set_spc SSelect (set_wpc WRecv
                   (set_writeDone ChanOpen (set_chanOut ChanOpen s)))))
      else Next (set_dpc CSignal s)
  | DLoop =>
      match input s with
      | [] => Blocked
      | ReadError :: rest => Next (set_dpc CSignal (set_input rest s))
      | ReadDecodeError :: rest => Next (set_input rest s)
      | ReadMessage m :: rest =>
          Next (dispatch m (log (EvReceived m) (set_input rest s)))
      end
  | DInline _ => Blocked
  | CSignal =>
      match chan_close (closing s) with
      | inl c => Next (set_dpc CDeadline (log EvClosingSignal (set_closing c s)))
      | inr why => Panic why
      end
  | CDeadline =>
      Next (set_dpc CCancel (log EvReaderWakeup (set_readDeadline true s)))
  | CCancel =>
      Next (set_dpc CJoin (log EvCancelAll (cancelAll s)))
  | CJoin =>
      if decide (wg s = 0) then Next (set_dpc CCloseQueue (log EvJoined s))
      else Blocked
  | CCloseQueue =>
      match chan_close (chanOut s) with
      | inl c => Next (set_dpc CWaitWriter (log EvQueueClosed (set_chanOut c s)))
      | inr why => Panic why
      end
  | CWaitWriter =>
      match writeDone s with
      | ChanClosed => Next (set_dpc CCloseSocket (log EvWriteComplete s))
      | _ => Blocked
      end
  | CCloseSocket =>
      Next (set_dpc CRelease (log EvSocketClosed (set_rwc_open false s)))
  | CRelease =>
      Next (set_dpc DDone (log EvServerReleased (set_srv_wg (srv_wg s - 1) s)))
  | DDone => Blocked
  end.

(** The read of client.go 94 returning a timeout once somebody has set
    the read deadline a millisecond ahead. *)
Definition timeout_step (s : state) : outcome :=
  match dpc s with
  | DLoop => if readDeadline s then Next (set_dpc CSignal s) else Blocked
  | _ => Blocked
  end.

(** ** The writer goroutine (client.go 56-61, 178-183) *)

Definition writer_step (s : state) : outcome :=
  match wpc s with
  | WIdle => Blocked
  | WRecv =>
      match chanOut s with
      | ChanClosed => Next (set_wpc WFinish s)
      | _ => Blocked
      end
  | WWrite m =>
      Next (set_wpc WRecv (if rwc_open s then set_wire (m :: wire s) s else s))
  | WFinish =>
      match chan_close (writeDone s) with
      | inl c => Next (set_wpc WExit (set_writeDone c s))
      | inr why => Panic why
      end
  | WExit => Blocked
  end.

(** ** The shutdown-watch goroutine (client.go 64-83) *)

Inductive branch := OnShutdown | OnClosing.

Definition watch_select (b : branch) (s : state) : outcome :=
  match spc s, b with
  | SSelect, OnShutdown =>
      if chDone s then Next (set_spc SJoin s) else Blocked
  | SSelect, OnClosing =>
      match closing s with
      | ChanClosed => Next (set_spc SExitClosing s)
      | _ => Blocked
      end
  | _, _ => Blocked
  end.

Definition watch_step (s : state) : outcome :=
  match spc s with
  | SJoin => Next (set_spc SSend (log EvWatchJoin (set_wg (wg s + 1) s)))
  | SSend =>
      match chan_send FromWatch shutdownNotice s with
      | Next s' => Next (set_spc SRelease s')
      | o => o
      end
  | SRelease =>
      match wg_done s with
      | Next s' => Next (set_spc SWakeup s')
      | o => o
      end
  | SWakeup => Next (set_spc SExitShutdown (set_readDeadline true s))
  | _ => Blocked
  end.

(** ** One activation of [ProcessRequestMessage] (client.go 203-233) *)

Definition set_h_pc (pc : request_pc) (h : activation) : activation :=
  {| h_msg := h_msg h; h_inline := h_inline h; h_pc := pc |}.

Definition goto (tid : nat) (pc : request_pc) (s : state) : state :=
  set_requests (alter (set_h_pc pc) tid (requests s)) s.

(** The statements of [ProcessRequestMessage] other than the handler's
    own code: the registration, then the three deferred calls in the
    reverse order of their [defer]s. *)
Definition request_step (tid : nat) (s : state) : outcome :=
  match requests s !! tid with
  | None => Blocked
  | Some h =>
      match h_pc h with
      | HStart => Next (goto tid HServing (registerCancel (messageID (h_msg h)) tid s))
      | HServing => Blocked
      | HReturned => Next (goto tid HCancel (deregisterCancel (messageID (h_msg h)) s))
      | HCancel => Next (goto tid HRelease (cancelCtx tid s))
      | HRelease =>
          match wg_done s with
          | Next s' =>
              let s' := goto tid HExit (log (EvHandlerDone tid) s') in
              Next (if h_inline h then set_dpc DLoop s' else s')
          | o => o
          end
      | HExit => Blocked
      end
  end.

(** The handler's code is the embedder's: while [ServeLDAP] runs it may
    write any protocol op through its response writer, any number of
    times, and return when it likes. *)
Definition handler_write (tid : nat) (po : ProtocolOp) (s : state) : outcome :=
  match requests s !! tid with
  | Some h =>
      match h_pc h with
      | HServing => Write tid {| w_messageID := messageID (h_msg h) |} po s
      | _ => Blocked
      end
  | None => Blocked
  end.

Definition handler_return (tid : nat) (s : state) : outcome :=
  match requests s !! tid with
  | Some h =>
      match h_pc h with
      | HServing => Next (goto tid HReturned s)
      | _ => Blocked
      end
  | None => Blocked
  end.

(** [Server.Shutdown] closing [chDone] (server.go 133); a second
    [close] of the channel panics. *)
Definition shutdown_step (s : state) : outcome :=
  if chDone s then Panic "close of closed channel"
  else Next (log EvShutdown (set_chDone true s)).

(** ** Schedules *)

Inductive action :=
| ADispatcher
| ATimeout
| AWriter
| AWatchSelect (b : branch)
| AWatch
| ARequest (tid : nat)
| AHandlerWrite (tid : nat) (po : ProtocolOp)
| AHandlerReturn (tid : nat)
| AShutdown.

Definition step (a : action) (s : state) : outcome :=
  match a with
  | ADispatcher => dispatcher_step s
  | ATimeout => timeout_step s
  | AWriter => writer_step s
  | AWatchSelect b => watch_select b s
  | AWatch => watch_step s
  | ARequest tid => request_step tid s
  | AHandlerWrite tid po => handler_write tid po s
  | AHandlerReturn tid => handler_return tid s
  | AShutdown => shutdown_step s
  end.

Fixpoint run (acts : list action) (s : state) : outcome :=
  match acts with
  | [] => Next s
  | a :: rest =>
      match step a s with
      | Next s' => run rest s'
      | o => o
      end
  end.

Definition reachable (handler : bool) (inp : list read_result) (s : state) : Prop :=
  ∃ acts, run acts (init handler inp) = Next s.

(** ** Observations on a state *)

(** How many statements of [close] the dispatcher has executed. *)
Definition close_progress (pc : dispatcher_pc) : nat :=
  match pc with
  | DStart | DLoop | DInline _ | CSignal => 0
  | CDeadline => 1
  | CCancel => 2
  | CJoin => 3
  | CCloseQueue => 4
  | CWaitWriter => 5
  | CCloseSocket => 6
  | CRelease => 7
  | DDone => 8
  end%nat.

(** The close protocol, oldest step first. *)
Definition close_protocol : list event :=
  [EvClosingSignal; EvReaderWakeup; EvCancelAll; EvJoined;
   EvQueueClosed; EvWriteComplete; EvSocketClosed; EvServerReleased].

(** The event is logged by a statement of [close]. *)
Definition is_close_event (e : event) : bool :=
  match e with
  | EvClosingSignal | EvReaderWakeup | EvCancelAll | EvJoined
  | EvQueueClosed | EvWriteComplete | EvSocketClosed | EvServerReleased => true
  | _ => false
  end.

(** The close-protocol events of a log, oldest first. *)
Definition close_events (tr : list event) : list event :=
  reverse (filter (λ e, is_close_event e = true) tr).

(** The dispatcher is inside [serve]'s read loop (or in a call made from
    it). *)
Definition in_loop (pc : dispatcher_pc) : bool :=
  match pc with DLoop | DInline _ => true | _ => false end.

(** The activation has not yet called its deferred [wg.Done()]. *)
Definition live (h : activation) : bool :=
  match h_pc h with HExit => false | _ => true end.

(** The activation has stored its cancel function and has not yet run
    its deferred delete. *)
Definition is_registered (h : activation) : bool :=
  match h_pc h with HServing | HReturned => true | _ => false end.

(** The number of activations that have not finished. *)
Fixpoint live_count (l : list activation) : Z :=
  match l with
  | [] => 0
  | h :: l => (if live h then 1 else 0) + live_count l
  end.

(** The watch goroutine stands between its [wg.Add(1)] and its
    [wg.Done()]. *)
Definition watch_hold (pc : watch_pc) : Z :=
  match pc with SSend | SRelease => 1 | _ => 0 end.

(** The watch goroutine has put its notice on the queue. *)
Definition watch_sent (pc : watch_pc) : bool :=
  match pc with SRelease | SWakeup | SExitShutdown => true | _ => false end.

(** The notices the shutdown watch has put on the queue, newest first. *)
Fixpoint notices_of (l : list (origin * LDAPMessage)) : list LDAPMessage :=
  match l with
  | [] => []
  | (FromWatch, m) :: l => m :: notices_of l
  | _ :: l => notices_of l
  end.

Definition watch_notices (s : state) : list LDAPMessage := notices_of (enq s).

(** The watch goroutine joined the wait group before [close] got past
    its [wg.Wait()]: in the log, no [EvJoined] is older than
    [EvWatchJoin]. *)
Fixpoint timely (tr : list event) : bool :=
  match tr with
  | [] => false
  | EvWatchJoin :: older => bool_decide (EvJoined ∉ older)
  | _ :: older => timely older
  end.

(** No request processor finishes after the queue or the socket was
    closed: below every [EvHandlerDone] the log has neither closure. *)
Fixpoint done_before_closures (tr : list event) : Prop :=
  match tr with
  | [] => True
  | EvHandlerDone _ :: older =>
      (EvQueueClosed ∉ older) ∧ (EvSocketClosed ∉ older) ∧ done_before_closures older
  | _ :: older => done_before_closures older
  end.

(** The dispatcher has read an unbind request. *)
Definition unbind_received (tr : list event) : Prop :=
  ∃ m, EvReceived m ∈ tr ∧ protocolOp m = UnbindRequest.

(** The dispatcher has left the read loop for [close]. *)
Definition closing_down (pc : dispatcher_pc) : bool :=
  match pc with DStart | DLoop | DInline _ => false | _ => true end.

(** The watch goroutine has taken its shutdown branch and called
    [wg.Add(1)]. *)
Definition watch_joined (pc : watch_pc) : bool :=
  match pc with
  | SSend | SRelease | SWakeup | SExitShutdown => true
  | _ => false
  end.

(** ** The statements, one rule each

    [sstep] lists the statements [step] can execute, one constructor per
    statement and outcome; [step_sstep] and [sstep_step] show that it is
    the same machine.  The invariants below are proved by cases on it. *)

(** The message falls through the type switch to [go
    c.ProcessRequestMessage]. *)
Definition goes_async (m : LDAPMessage) : bool :=
  match protocolOp m with
  | AbandonRequest _ | UnbindRequest => false
  | ExtendedRequest name => bool_decide (name ≠ NoticeOfStartTLS)
  | _ => true
  end.

Inductive sstep : action → state → state → Prop :=
| S_start s :
    dpc s = DStart → handleConnection s = true →
    sstep ADispatcher s
      (set_dpc DLoop (set_spc SSelect (set_wpc WRecv
         (set_writeDone ChanOpen (set_chanOut ChanOpen (set_closing ChanOpen s))))))
| S_declined s :
    dpc s = DStart → handleConnection s = false →
    sstep ADispatcher s (set_dpc CSignal (set_closing ChanOpen s))
| S_read_error s rest :
    dpc s = DLoop → input s = ReadError :: rest →
    sstep ADispatcher s (set_dpc CSignal (set_input rest s))
| S_decode_error s rest :
    dpc s = DLoop → input s = ReadDecodeError :: rest →
    sstep ADispatcher s (set_input rest s)
| S_abandon s m rest t :
    dpc s = DLoop → input s = ReadMessage m :: rest →
    protocolOp m = AbandonRequest t →
    sstep ADispatcher s (cancelMessageID t (log (EvReceived m) (set_input rest s)))
| S_unbind s m rest :
    dpc s = DLoop → input s = ReadMessage m :: rest →
    protocolOp m = UnbindRequest →
    sstep ADispatcher s (set_dpc CSignal (log (EvReceived m) (set_input rest s)))
| S_starttls s m rest :
    dpc s = DLoop → input s = ReadMessage m :: rest →
    protocolOp m = ExtendedRequest NoticeOfStartTLS →
    sstep ADispatcher s
      (set_dpc (DInline (length (requests s)))
         (spawn true m (log (EvReceived m) (set_input rest s))))
| S_async s m rest :
    dpc s = DLoop → input s = ReadMessage m :: rest →
    goes_async m = true →
    sstep ADispatcher s (spawn false m (log (EvReceived m) (set_input rest s)))
| S_close_signal s :
    dpc s = CSignal → closing s = ChanOpen →
    sstep ADispatcher s (set_dpc CDeadline (log EvClosingSignal (set_closing ChanClosed s)))
| S_close_deadline s :
    dpc s = CDeadline →
    sstep ADispatcher s (set_dpc CCancel (log EvReaderWakeup (set_readDeadline true s)))
| S_close_cancel s :
    dpc s = CCancel →
    sstep ADispatcher s (set_dpc CJoin (log EvCancelAll (cancelAll s)))
| S_close_join s :
    dpc s = CJoin → wg s = 0 →
    sstep ADispatcher s (set_dpc CCloseQueue (log EvJoined s))
| S_close_queue s :
    dpc s = CCloseQueue → chanOut s = ChanOpen →
    sstep ADispatcher s (set_dpc CWaitWriter (log EvQueueClosed (set_chanOut ChanClosed s)))
| S_close_wait s :
    dpc s = CWaitWriter → writeDone s = ChanClosed →
    sstep ADispatcher s (set_dpc CCloseSocket (log EvWriteComplete s))
| S_close_socket s :
    dpc s = CCloseSocket →
    sstep ADispatcher s (set_dpc CRelease (log EvSocketClosed (set_rwc_open false s)))
| S_close_release s :
    dpc s = CRelease →
    sstep ADispatcher s (set_dpc DDone (log EvServerReleased (set_srv_wg (srv_wg s - 1) s)))
| S_timeout s :
    dpc s = DLoop → readDeadline s = true →
    sstep ATimeout s (set_dpc CSignal s)
| S_writer_end s :
    wpc s = WRecv → chanOut s = ChanClosed →
    sstep AWriter s (set_wpc WFinish s)
| S_writer_write s m :
    wpc s = WWrite m →
    sstep AWriter s (set_wpc WRecv (if rwc_open s then set_wire (m :: wire s) s else s))
| S_writer_finish s :
    wpc s = WFinish → writeDone s = ChanOpen →
    sstep AWriter s (set_wpc WExit (set_writeDone ChanClosed s))
| S_watch_shutdown s :
    spc s = SSelect → chDone s = true →
    sstep (AWatchSelect OnShutdown) s (set_spc SJoin s)
| S_watch_closing s :
    spc s = SSelect → closing s = ChanClosed →
    sstep (AWatchSelect OnClosing) s (set_spc SExitClosing s)
| S_watch_join s :
    spc s = SJoin →
    sstep AWatch s (set_spc SSend (log EvWatchJoin (set_wg (wg s + 1) s)))
| S_watch_send s :
    spc s = SSend → chanOut s = ChanOpen → wpc s = WRecv →
    sstep AWatch s
      (set_spc SRelease
         (set_enq ((FromWatch, shutdownNotice) :: enq s) (set_wpc (WWrite shutdownNotice) s)))
| S_watch_release s :
    spc s = SRelease → 0 < wg s →
    sstep AWatch s (set_spc SWakeup (set_wg (wg s - 1) s))
| S_watch_wakeup s :
    spc s = SWakeup →
    sstep AWatch s (set_spc SExitShutdown (set_readDeadline true s))
| S_register s tid h :
    requests s !! tid = Some h → h_pc h = HStart →
    sstep (ARequest tid) s (goto tid HServing (registerCancel (messageID (h_msg h)) tid s))
| S_deregister s tid h :
    requests s !! tid = Some h → h_pc h = HReturned →
    sstep (ARequest tid) s (goto tid HCancel (deregisterCancel (messageID (h_msg h)) s))
| S_cancel_own s tid h :
    requests s !! tid = Some h → h_pc h = HCancel →
    sstep (ARequest tid) s (goto tid HRelease (cancelCtx tid s))
| S_release s tid h :
    requests s !! tid = Some h → h_pc h = HRelease → 0 < wg s →
    sstep (ARequest tid) s
      (let s' := goto tid HExit (log (EvHandlerDone tid) (set_wg (wg s - 1) s)) in
       if h_inline h then set_dpc DLoop s' else s')
| S_write s tid h po :
    requests s !! tid = Some h → h_pc h = HServing →
    chanOut s = ChanOpen → wpc s = WRecv →
    sstep (AHandlerWrite tid po) s
      (set_enq ((FromHandler tid, wrap {| w_messageID := messageID (h_msg h) |} po) :: enq s)
         (set_wpc (WWrite (wrap {| w_messageID := messageID (h_msg h) |} po)) s))
| S_return s tid h :
    requests s !! tid = Some h → h_pc h = HServing →
    sstep (AHandlerReturn tid) s (goto tid HReturned s)
| S_shutdown s :
    chDone s = false →
    sstep AShutdown s (log EvShutdown (set_chDone true s)).

(** ** Invariants of a session *)

(** What the channels are at each point of the dispatcher and of the
    writer. *)
Definition closing_at (pc : dispatcher_pc) : chan :=
  match pc with
  | DStart => ChanNil
  | DLoop | DInline _ | CSignal => ChanOpen
  | _ => ChanClosed
  end.

Definition chanOut_at (handler : bool) (pc : dispatcher_pc) : chan :=
  match pc with
  | DStart => ChanNil
  | CWaitWriter | CCloseSocket | CRelease | DDone =>
      if handler then ChanClosed else ChanNil
  | _ => if handler then ChanOpen else ChanNil
  end.

Definition writeDone_at (pc : writer_pc) : chan :=
  match pc with WIdle => ChanNil | WExit => ChanClosed | _ => ChanOpen end.

(** [serve] is past its first statements. *)
Definition started (pc : dispatcher_pc) : bool :=
  match pc with DStart => false | _ => true end.

(** Where the writer and the watch goroutine can stand, given where
    the dispatcher stands. *)
Definition writer_ok (handler : bool) (pc : dispatcher_pc) (w : writer_pc) : bool :=
  match w with
  | WIdle => negb (started pc) || negb handler
  | WRecv | WWrite _ => handler && started pc && (close_progress pc <=? 5)%nat
  | WFinish => handler && (close_progress pc =? 5)%nat
  | WExit => handler && (5 <=? close_progress pc)%nat
  end.

Definition watch_ok (handler : bool) (pc : dispatcher_pc) (w : watch_pc) : bool :=
  match w with
  | SIdle => negb (started pc) || negb handler
  | SExitClosing => handler && (1 <=? close_progress pc)%nat
  | _ => handler && started pc
  end.

(** An activation that runs on the dispatcher's own goroutine keeps the
    dispatcher inside that call until it is over. *)
Definition inline_ok (s : state) : Prop :=
  ∀ tid h, requests s !! tid = Some h → h_inline h = true → live h = true →
           dpc s = DInline tid.

(** Channels and program counters agree. *)
Record control_ok (s : state) : Prop := {
  co_inline : inline_ok s;
  co_closing : closing s = closing_at (dpc s);
  co_chanOut : chanOut s = chanOut_at (handleConnection s) (dpc s);
  co_writeDone : writeDone s = writeDone_at (wpc s);
  co_rwc : rwc_open s = (close_progress (dpc s) <=? 6)%nat;
  co_srv_wg : srv_wg s = if decide (dpc s = DDone) then 0 else 1;
  co_writer : writer_ok (handleConnection s) (dpc s) (wpc s) = true;
  co_watch : watch_ok (handleConnection s) (dpc s) (spc s) = true;
  co_declined :
    handleConnection s
    || ((close_progress (dpc s) <=? 4)%nat && negb (in_loop (dpc s))) = true
}.

(** The handler wait group counts the activations that have not
    finished and the watch goroutine while it holds it; past
    [wg.Wait()] no activation is left. *)
Record counts_ok (s : state) : Prop := {
  cn_wg : wg s = live_count (requests s) + watch_hold (spc s);
  cn_joined : (4 <=? close_progress (dpc s))%nat = true → live_count (requests s) = 0
}.

(** The registry points at registered activations. *)
Definition registry_ok (s : state) : Prop :=
  ∀ id ctx, registry s !! id = Some ctx →
    ∃ h, requests s !! ctx = Some h ∧ messageID (h_msg h) = id ∧
         is_registered h = true.

(** The writer holds at most the newest message of the queue; every
    older one is on the wire. *)
Definition wire_ok (s : state) : Prop :=
  match wpc s with
  | WWrite m => ∃ o rest, enq s = (o, m) :: rest ∧ wire s = rest.*2
  | _ => wire s = (enq s).*2
  end.

(** A message on the queue is the watch's notice or carries the id of
    the request whose handler wrote it. *)
Definition origin_ok (s : state) : Prop :=
  ∀ o m, (o, m) ∈ enq s →
    match o with
    | FromWatch => m = shutdownNotice
    | FromHandler tid =>
        ∃ h po, requests s !! tid = Some h ∧
                m = wrap {| w_messageID := messageID (h_msg h) |} po
    end.

(** The watch enqueues its notice exactly when it passes its send. *)
Definition notice_ok (s : state) : Prop :=
  watch_notices s = if watch_sent (spc s) then [shutdownNotice] else [].

(** The close events in the log are the statements of [close] executed
    so far, in order. *)
Definition close_log_ok (s : state) : Prop :=
  close_events (trace s) = take (close_progress (dpc s)) close_protocol.

(** The watch goroutine and the log. *)
Record watch_log_ok (s : state) : Prop := {
  wl_joined : EvWatchJoin ∈ trace s → watch_joined (spc s) = true;
  wl_timely : timely (trace s) = true → watch_hold (spc s) = 1 →
              (close_progress (dpc s) <=? 3)%nat = true
}.

(** Once an unbind request is in the log the dispatcher is in [close]. *)
Definition unbind_ok (s : state) : Prop :=
  unbind_received (trace s) → closing_down (dpc s) = true.

(** Request processors and the two closures. *)
Record done_ok (s : state) : Prop := {
  dn_order : done_before_closures (trace s);
  dn_logged : ∀ tid h, requests s !! tid = Some h → live h = false →
                       EvHandlerDone tid ∈ trace s
}.

Record inv (s : state) : Prop := {
  inv_control : control_ok s;
  inv_counts : counts_ok s;
  inv_registry : registry_ok s;
  inv_wire : wire_ok s;
  inv_origin : origin_ok s;
  inv_notice : notice_ok s;
  inv_close_log : close_log_ok s;
  inv_watch_log : watch_log_ok s;
  inv_unbind : unbind_ok s;
  inv_done : done_ok s
}.

(** While the dispatcher is inside an inline call, the activation it
    runs exists, is inline and is not over; inline activations are
    StartTLS requests. *)
Record inline_call_ok (s : state) : Prop := {
  ic_call : ∀ tid, dpc s = DInline tid →
    ∃ x, requests s !! tid = Some x ∧ h_inline x = true ∧ live x = true;
  ic_starttls : ∀ tid x, requests s !! tid = Some x → h_inline x = true →
    protocolOp (h_msg x) = ExtendedRequest NoticeOfStartTLS
}.

(** ** The registry and the requests in flight *)

(** The ids of the activations that have stored their cancel function
    and have not yet run their deferred delete. *)
Definition in_flight_ids (s : state) : gset Z :=
  list_to_set
    ((λ h, messageID (h_msg h)) <$> filter (λ h, is_registered h = true) (requests s)).

(** Who may change the registry entry of [id] in one step, and how. *)
Inductive registry_change (s : state) (id : Z) : action → option nat → Prop :=
| change_register tid h :
    requests s !! tid = Some h → h_pc h = HStart → messageID (h_msg h) = id →
    registry_change s id (ARequest tid) (Some tid)
| change_completion tid h :
    requests s !! tid = Some h → h_pc h = HReturned → messageID (h_msg h) = id →
    registry_change s id (ARequest tid) None
| change_abandon m rest :
    dpc s = DLoop → input s = ReadMessage m :: rest →
    protocolOp m = AbandonRequest id →
    registry_change s id ADispatcher None
| change_close :
    dpc s = CCancel →
    registry_change s id ADispatcher None.

(** ** Work left to the request processors *)


(** How many statements an activation still has to run, if its handler
    returns without writing. *)
Definition steps_left (h : activation) : nat :=
  match h_pc h with
  | HStart => 5
  | HServing => 4
  | HReturned => 3
  | HCancel => 2
  | HRelease => 1
  | HExit => 0
  end.

Fixpoint work_left (l : list activation) : nat :=
  match l with
  | [] => 0
  | h :: l => steps_left h + work_left l
  end.





(** ** More invariants of a session *)

(** A context is cancelled only once its activation has stored the
    cancel function, and it is cancelled when the activation is past its
    deferred [cancelCtx()]. *)
Record cancel_ok (s : state) : Prop := {
  ca_created : ∀ tid, tid ∈ cancelled s →
    ∃ x, requests s !! tid = Some x ∧ h_pc x ≠ HStart;
  ca_released : ∀ tid x, requests s !! tid = Some x →
    h_pc x = HRelease ∨ h_pc x = HExit → tid ∈ cancelled s }.

(** The messages the type switch of client.go 117-138 hands to
    [ProcessRequestMessage]: all but abandon and unbind requests. *)
Definition is_dispatched (m : LDAPMessage) : bool :=
  match protocolOp m with
  | AbandonRequest _ | UnbindRequest => false
  | _ => true
  end.

(** The messages logged as received, newest first. *)
Fixpoint received (tr : list event) : list LDAPMessage :=
  match tr with
  | [] => []
  | EvReceived m :: tr => m :: received tr
  | _ :: tr => received tr
  end.

(** The messages among the results of a sequence of reads. *)
Definition decoded (l : list read_result) : list LDAPMessage :=
  omap (λ r, match r with ReadMessage m => Some m | _ => None end) l.

(** What the session has read is a prefix of what the peer sends; the
    log and the activations follow it in order. *)
Definition arrival_ok (inp : list read_result) (s : state) : Prop :=
  ∃ consumed,
    inp = consumed ++ input s ∧
    received (trace s) = reverse (decoded consumed) ∧
    h_msg <$> requests s = filter (λ m, is_dispatched m) (decoded consumed).

(** The watch goroutine is on its shutdown branch, or has left by it. *)
Definition watch_on_shutdown (pc : watch_pc) : bool :=
  match pc with
  | SJoin | SSend | SRelease | SWakeup | SExitShutdown => true
  | _ => false
  end.

Record shutdown_ok (s : state) : Prop := {
  sh_logged : chDone s = true ↔ EvShutdown ∈ trace s;
  sh_watch : watch_on_shutdown (spc s) = true → chDone s = true;
  sh_deadline : readDeadline s = true →
    spc s = SExitShutdown ∨ (2 <=? close_progress (dpc s))%nat = true }.

(** The message ids of the activations, in the order of their start. *)
Definition request_ids (s : state) : list Z :=
  (λ x, messageID (h_msg x)) <$> requests s.

(** As long as no message id was used twice, an activation between its
    registration and its deferred delete has its cancel function in the
    registry under its id, unless it was called already. *)
Definition linked (s : state) : Prop :=
  NoDup (request_ids s) →
  ∀ tid x, requests s !! tid = Some x → is_registered x = true →
    tid ∈ cancelled s ∨ registry s !! messageID (h_msg x) = Some tid.

(** The activation has not yet run its deferred [cancelCtx()]. *)
Definition pending (h : activation) : bool :=
  match h_pc h with HRelease | HExit => false | _ => true end.

(** The invariants of a session that was sent [sent]. *)
Record session_ok (sent : list read_result) (s : state) : Prop := {
  so_inv : inv s;
  so_cancel : cancel_ok s;
  so_arrival : arrival_ok sent s;
  so_shutdown : shutdown_ok s;
  so_linked : linked s
}.

(** ** Work left to [close] *)








(** ** Sample sessions *)

Definition bind1 : LDAPMessage :=
  {| messageID := 1; protocolOp := BindRequest "u" "p" |}.

Definition unbind2 : LDAPMessage :=
  {| messageID := 2; protocolOp := UnbindRequest |}.

Definition search5 : LDAPMessage :=
  {| messageID := 5; protocolOp := SearchRequest "dc=example" |}.

Definition abandon5 : LDAPMessage :=
  {| messageID := 6; protocolOp := AbandonRequest 5 |}.

Definition starttls1 : LDAPMessage :=
  {| messageID := 1; protocolOp := ExtendedRequest NoticeOfStartTLS |}.

(** A bind request answered by its handler, then an unbind request,
    then [close] to its end. *)
Definition bind_unbind_schedule : list action :=
  [ADispatcher; ADispatcher; ARequest 0; AHandlerWrite 0 (BindResponse 0);
   AWriter; AHandlerReturn 0; ARequest 0; ARequest 0; ARequest 0;
   ADispatcher; ADispatcher; AWatchSelect OnClosing; ADispatcher; ADispatcher;
   ADispatcher; ADispatcher; AWriter; AWriter; ADispatcher; ADispatcher;
   ADispatcher].

(** The server shuts down while the session sits in its read loop; the
    client's unbind request arrives before the watch goroutine is
    scheduled, and the watch's [select], with both channels ready, takes
    the [closing] case. *)
Definition shutdown_race_schedule : list action :=
  [ADispatcher; AShutdown; ADispatcher; ADispatcher; AWatchSelect OnClosing;
   ADispatcher; ADispatcher; ADispatcher; ADispatcher; AWriter; AWriter;
   ADispatcher; ADispatcher; ADispatcher].

(** The server shuts down while a search is being served: the watch
    takes the shutdown branch in time, the notice goes out, the read
    loop times out and the session closes. *)
Definition graceful_shutdown_schedule : list action :=
  [ADispatcher; ADispatcher; ARequest 0; AShutdown; AWatchSelect OnShutdown;
   AWatch; AWatch; AWriter; AWatch; AWatch; ATimeout;
   ADispatcher; ADispatcher; ADispatcher;
   AHandlerReturn 0; ARequest 0; ARequest 0; ARequest 0;
   ADispatcher; ADispatcher; AWriter; AWriter;
   ADispatcher; ADispatcher; ADispatcher].

(** The watch goroutine has taken its shutdown branch but not yet
    called [wg.Add(1)] when the unbind request is read and [close] runs
    through [wg.Wait()] and closes the queue; then the watch goes on. *)
Definition late_join_schedule : list action :=
  [ADispatcher; AShutdown; AWatchSelect OnShutdown; ADispatcher; ADispatcher;
   ADispatcher; ADispatcher; ADispatcher; ADispatcher; AWatch; AWatch].

(** A session in its read loop with one search request (id 5)
    registered and being served, and the given reads still to come. *)
Definition serving_search (inp : list read_result) : state :=
  match run [ADispatcher; ADispatcher; ARequest 0]
          (init true (ReadMessage search5 :: inp)) with
  | Next s => s
  | _ => init true inp
  end.

(** Two searches with the same id 5 in flight; the first one returns
    and runs its deferred delete, then an abandon request for 5 is
    read. *)
Definition duplicate_id_schedule : list action :=
  [ADispatcher; ADispatcher; ARequest 0; ADispatcher; ARequest 1;
   AHandlerReturn 0; ARequest 0; ADispatcher].


(** A search request and an unbind request are read, and [close] runs
    through its cancel loop, before the goroutine of the search is
    scheduled for the first time. *)
Definition late_registration_schedule : list action :=
  [ADispatcher; ADispatcher; ADispatcher; ADispatcher; ADispatcher; ADispatcher].


(** * Proofs *)

(** ** [step] and [sstep] are the same machine *)

(** Unfold [step] down to the statement it runs. *)
Ltac unfold_step H :=
  unfold step, dispatcher_step, timeout_step, writer_step, watch_select,
    watch_step, request_step, handler_write, handler_return, shutdown_step,
    Write, chan_send, wg_done, chan_close, dispatch in H.

(** Split on every test [H] makes. *)
Ltac crack H :=
  repeat (simpl in H;
          match type of H with
          | context [match ?x with _ => _ end] => destruct x eqn:?
          | context [if ?x then _ else _] => destruct x eqn:?
          end; simplify_eq/=).

Lemma step_sstep a s s' : step a s = Next s' → sstep a s s'.
Proof.
  intros H. destruct a; unfold_step H; crack H;
    repeat (case_match; simplify_eq/=);
    try (econstructor; eauto; simpl; try lia; by (try case_bool_decide)).
  all: try (apply S_async; auto; unfold goes_async;
            match goal with E : protocolOp _ = _ |- _ => rewrite E end;
            by (try case_bool_decide)).
  all: try match goal with
       | E : rwc_open ?s = ?b, W : wpc ?s = WWrite ?m |- sstep AWriter ?s ?s' =>
           replace s' with (set_wpc WRecv (if rwc_open s then set_wire (m :: wire s) s else s))
             by (by rewrite E); by constructor
       | E : h_inline ?h = ?b, L : requests ?s !! ?tid = Some ?h |- sstep (ARequest ?tid) ?s ?s' =>
           replace s' with
             (let s1 := goto tid HExit (log (EvHandlerDone tid) (set_wg (wg s - 1) s)) in
              if h_inline h then set_dpc DLoop s1 else s1)
             by (by rewrite E); apply S_release; auto; lia
       end.
Qed.


(** ** Invariants: channels and program counters *)

Lemma init_control_ok h inp : control_ok (init h inp).
Proof. split; simpl; try done; try lia; naive_solver. Qed.

Lemma lookup_spawn (l : list activation) h j x :
  (l ++ [h]) !! j = Some x → l !! j = Some x ∨ (j = length l ∧ x = h).
Proof.
  intros H. destruct (decide (j < length l)%nat).
  - left. by rewrite lookup_app_l in H.
  - right. rewrite lookup_app_r in H by lia.
    destruct (j - length l)%nat as [|k] eqn:E; simpl in H; [|by destruct k].
    split; [lia | congruence].
Qed.

Lemma lookup_goto (l : list activation) tid pc j x :
  alter (set_h_pc pc) tid l !! j = Some x →
  (j ≠ tid ∧ l !! j = Some x) ∨
  (j = tid ∧ ∃ h, l !! tid = Some h ∧ x = set_h_pc pc h).
Proof.
  rewrite list_lookup_alter. case_decide as E; subst.
  - intros Hx. right. split; [done|].
    destruct (l !! j) as [h|]; simplify_eq/=. eauto.
  - intros Hx. left. split; [congruence | done].
Qed.

(** Unfold what a statement does to the state. *)
Ltac open_effects :=
  unfold cancelMessageID, cancelAll, registerCancel, deregisterCancel, cancelCtx,
    spawn, goto, log, registry in *.

(** Case analysis on the statement executed, with the pre-state's fields
    as variables. *)
Ltac by_statement Hs :=
  destruct Hs;
  match goal with
  | s : state |- _ =>
      destruct s as [hc inp pc cl co wd w rc cn reqs wp sp cd ro rd sw en wi tr]
  end;
  open_effects; simplify_eq/=.

(** Add a fact to the context unless it is there already. *)
Ltac learn H :=
  let T := type of H in
  lazymatch goal with
  | _ : T |- _ => fail
  | _ => pose proof H
  end.

(** Rewrite with what is known about the activations' program counters. *)
Ltac use_pcs :=
  unfold live, is_registered in *; simpl in *;
  repeat match goal with E : h_pc _ = _ |- _ => rewrite E in * end;
  simpl in *.

(** Case analysis on the program counters and flags that are left. *)
Ltac split_pcs :=
  repeat (match goal with
          | x : bool, H : context [?y] |- _ => constr_eq x y; destruct x
          | x : bool |- context [?y] => constr_eq x y; destruct x
          | x : dispatcher_pc |- _ => destruct x
          | x : writer_pc |- _ => destruct x
          | x : watch_pc |- _ => destruct x
          end; simplify_eq/=).

(** Split on every test in sight, then close the goal. *)
Ltac fin := simpl in *; repeat (case_match; simplify_eq/=); try done; try lia.

Lemma step_inline_ok a s s' : inline_ok s → sstep a s s' → inline_ok s'.
Proof.
  unfold inline_ok. intros Hin Hs. by_statement Hs; fin; try assumption.
  all: intros j hj Hl Hi Hv.
  all: try (apply lookup_spawn in Hl as [Hl|[-> ->]]).
  all: try (apply lookup_goto in Hl as [[? Hl]|[-> (h' & Hl & ->)]]).
  all: simplify_eq/=.
  all: repeat match goal with
       | L : ?l !! ?k = Some ?x |- _ => learn (Hin k x L)
       end.
  all: use_pcs; naive_solver congruence.
Qed.

Lemma step_control_ok a s s' : control_ok s → sstep a s s' → control_ok s'.
Proof.
  intros [Hin Hrest] Hs.
  pose proof (step_inline_ok _ _ _ Hin Hs) as Hin'.
  split; [exact Hin'|..]; clear Hin'.
  all: unfold inline_ok in Hin; by_statement Hs.
  all: repeat match goal with
       | L : ?l !! ?k = Some ?x |- _ => learn (Hin k x L)
       end; clear Hin; use_pcs.
  all: fin.
  all: repeat match goal with H : ?a = ?a → _ |- _ => specialize (H eq_refl) end;
       simplify_eq/=.
  all: try done.
  all: by split_pcs.
Qed.

(** *** The wait group counts the live activations *)

Lemma live_count_nonneg l : 0 ≤ live_count l.
Proof. induction l as [|h l IH]; simpl; [done|]. destruct (live h); lia. Qed.

Lemma live_count_app l h :
  live_count (l ++ [h]) = live_count l + (if live h then 1 else 0).
Proof. induction l as [|x l IH]; simpl; [lia|]. rewrite IH. lia. Qed.

Lemma live_count_alter l tid h pc :
  l !! tid = Some h →
  live_count (alter (set_h_pc pc) tid l) =
  live_count l - (if live h then 1 else 0) + (if live (set_h_pc pc h) then 1 else 0).
Proof.
  revert tid. induction l as [|x l IH]; intros [|tid] H; simplify_eq/=.
  - lia.
  - rewrite (IH tid H). lia.
Qed.

Lemma live_count_lookup l tid h :
  l !! tid = Some h → live h = true → 1 ≤ live_count l.
Proof.
  revert tid. induction l as [|x l IH]; intros [|tid] H Hl; simplify_eq/=.
  - rewrite Hl. pose proof (live_count_nonneg l). lia.
  - pose proof (IH tid H Hl). destruct (live x); lia.
Qed.

Lemma live_count_zero l tid h :
  live_count l = 0 → l !! tid = Some h → live h = false.
Proof.
  intros Hz Hl. destruct (live h) eqn:E; [|done].
  pose proof (live_count_lookup l tid h Hl E). lia.
Qed.

Lemma init_counts_ok h inp : counts_ok (init h inp).
Proof. by split. Qed.

(** Discharge premises that have become [a = a]. *)
Ltac specialize_trivial :=
  repeat match goal with
         | H : ?a = ?a → _ |- _ => specialize (H eq_refl)
         | H : true = false → _ |- _ => clear H
         | H : false = true → _ |- _ => clear H
         end.

(** Bring [live_count] of an updated list back to the list's. *)
Ltac count_tac :=
  rewrite ?live_count_app;
  repeat match goal with
         | L : ?l !! ?k = Some ?h |- _ => rewrite (live_count_alter l k h _ L)
         end;
  repeat match goal with
         | L : ?l !! ?k = Some ?h |- _ => learn (live_count_lookup l k h L)
         end;
  match goal with
  | |- context [live_count ?l] => learn (live_count_nonneg l)
  | _ => idtac
  end.

Lemma step_counts_ok a s s' :
  control_ok s → counts_ok s → sstep a s s' → counts_ok s'.
Proof.
  intros [Hin ? ? ? ? ? ? ? ?] [] Hs. unfold inline_ok in Hin.
  split; by_statement Hs.
  all: repeat match goal with
       | L : ?l !! ?k = Some ?x |- _ => learn (Hin k x L)
       end; clear Hin.
  all: fin; count_tac; use_pcs; specialize_trivial; simplify_eq/=; fin.
  all: intros; split_pcs; fin.
Qed.

(** *** The registry *)

Lemma init_registry_ok h inp : registry_ok (init h inp).
Proof. intros id ctx H. unfold registry in H. simpl in H. by rewrite lookup_empty in H. Qed.

Lemma goto_lookup (l : list activation) tid h pc ctx h' :
  l !! tid = Some h → l !! ctx = Some h' →
  alter (set_h_pc pc) tid l !! ctx =
  Some (if decide (ctx = tid) then set_h_pc pc h else h').
Proof.
  intros Ht Hc. rewrite list_lookup_alter.
  case_decide; subst.
  - rewrite decide_True by done. by rewrite Ht.
  - rewrite decide_False by congruence. done.
Qed.

Lemma step_registry_ok a s s' : registry_ok s → sstep a s s' → registry_ok s'.
Proof.
  unfold registry_ok. intros Hreg Hs. by_statement Hs; fin; try assumption.
  all: intros id ctx Hl; simpl in *.
  all: try (rewrite lookup_empty in Hl; done).
  all: rewrite ?lookup_insert_Some, ?lookup_delete_Some in Hl.
  all: try (destruct rc as [reg|]; simpl in *;
            rewrite ?lookup_insert_Some, ?lookup_delete_Some, ?lookup_empty in Hl).
  all: try done.
  all: destruct_and?; destruct_or?; destruct_and?; simplify_eq/=.
  all: try match goal with
       | Hx : ?m !! _ = Some _ |- _ =>
           lazymatch type of m with
           | gmap _ _ => destruct (Hreg _ _ Hx) as (h' & L & M & R)
           end
       end.
  all: try (erewrite goto_lookup by eassumption; case_decide; simplify_eq/=).
  all: try (eexists; split; [eassumption|]; done).
  all: try (eexists; split; [by apply lookup_app_l_Some|]; done).
  all: use_pcs; simplify_eq/=.
  all: try (eexists; split; [done|]; use_pcs; done).
Qed.

(** *** The queue and the wire *)

Lemma init_wire_ok h inp : wire_ok (init h inp).
Proof. done. Qed.

Lemma step_wire_ok a s s' : control_ok s → wire_ok s → sstep a s s' → wire_ok s'.
Proof.
  unfold wire_ok. intros [_ ? ? ? ? ? ? ? ?] Hw Hs.
  by_statement Hs; fin; try assumption; try (by eexists _, _).
  all: try (destruct Hw as (o & rest' & ? & Hw)); simplify_eq/=; try congruence.
  all: split_pcs; fin.
Qed.

Lemma init_origin_ok h inp : origin_ok (init h inp).
Proof. intros o m H. by apply elem_of_nil in H. Qed.

Lemma step_origin_ok a s s' : origin_ok s → sstep a s s' → origin_ok s'.
Proof.
  unfold origin_ok. intros Ho Hs. by_statement Hs; fin; try assumption.
  all: intros o m' Hm; rewrite ?elem_of_cons in Hm.
  all: destruct_or?; simplify_eq/=; eauto.
  all: specialize (Ho _ _ Hm); destruct o as [|k]; [done|].
  all: destruct Ho as (h' & po' & L & ->).
  all: try (erewrite goto_lookup by eassumption; case_decide; simplify_eq/=; by eauto).
  all: try (eexists _, _; split; [by apply lookup_app_l_Some|done]).
  all: by eauto.
Qed.

Lemma init_notice_ok h inp : notice_ok (init h inp).
Proof. done. Qed.

Lemma step_notice_ok a s s' : control_ok s → notice_ok s → sstep a s s' → notice_ok s'.
Proof.
  unfold notice_ok, watch_notices. intros [_ ? ? ? ? ? ? ? ?] Hn Hs.
  by_statement Hs; fin; try assumption; try congruence.
  all: split_pcs; fin; congruence.
Qed.

(** *** What the log says *)

Lemma close_events_cons e tr :
  close_events (e :: tr) =
  if is_close_event e then close_events tr ++ [e] else close_events tr.
Proof.
  unfold close_events. rewrite filter_cons.
  destruct (is_close_event e); case_decide; try done.
  by rewrite reverse_cons.
Qed.

Lemma close_events_elem e tr :
  is_close_event e = true → e ∈ tr ↔ e ∈ close_events tr.
Proof.
  intros He. unfold close_events.
  rewrite elem_of_reverse, list_elem_of_filter. tauto.
Qed.

Lemma close_protocol_NoDup : NoDup close_protocol.
Proof.
  apply NoDup_ListNoDup. unfold close_protocol.
  repeat constructor; simpl; intuition discriminate.
Qed.

(** Under the log invariant an event of the protocol is in the log
    exactly when the dispatcher is past the statement that emits it. *)
Lemma close_event_logged tr n k e :
  close_events tr = take n close_protocol →
  close_protocol !! k = Some e →
  e ∈ tr ↔ (k < n)%nat.
Proof.
  intros Hc Hk.
  assert (is_close_event e = true) as He.
  { do 8 (destruct k as [|k]; simplify_eq/=; try done). }
  rewrite (close_events_elem _ _ He), Hc, list_elem_of_lookup.
  split.
  - intros [i Hi]. apply lookup_take_Some in Hi as [Hi ?].
    by rewrite <- (NoDup_lookup _ _ _ _ close_protocol_NoDup Hi Hk).
  - intros Hlt. exists k. apply lookup_take_Some. done.
Qed.

Lemma init_close_log_ok h inp : close_log_ok (init h inp).
Proof. done. Qed.

Lemma step_close_log_ok a s s' :
  control_ok s → close_log_ok s → sstep a s s' → close_log_ok s'.
Proof.
  unfold close_log_ok. intros [Hin _ _ _ _ _ _ _ _] Hc Hs. unfold inline_ok in Hin.
  by_statement Hs.
  all: repeat match goal with
       | L : ?l !! ?k = Some ?x |- _ => learn (Hin k x L)
       end; clear Hin.
  all: fin; rewrite ?close_events_cons; simpl; try assumption.
  all: try (rewrite Hc; done).
  all: use_pcs; specialize_trivial; simplify_eq/=; try done.
Qed.

Lemma joined_logged s :
  close_log_ok s → EvJoined ∈ trace s ↔ (4 <=? close_progress (dpc s))%nat = true.
Proof.
  intros Hc. rewrite (close_event_logged _ _ 3 EvJoined Hc eq_refl).
  rewrite Nat.leb_le. lia.
Qed.

Lemma queue_closed_logged s :
  close_log_ok s → EvQueueClosed ∈ trace s ↔ (5 <=? close_progress (dpc s))%nat = true.
Proof.
  intros Hc. rewrite (close_event_logged _ _ 4 EvQueueClosed Hc eq_refl).
  rewrite Nat.leb_le. lia.
Qed.

Lemma socket_closed_logged s :
  close_log_ok s → EvSocketClosed ∈ trace s ↔ (7 <=? close_progress (dpc s))%nat = true.
Proof.
  intros Hc. rewrite (close_event_logged _ _ 6 EvSocketClosed Hc eq_refl).
  rewrite Nat.leb_le. lia.
Qed.

Lemma timely_joined tr : timely tr = true → EvWatchJoin ∈ tr.
Proof.
  induction tr as [|e tr IH]; simpl; [done|].
  destruct e; intros H; try (apply list_elem_of_further; by apply IH).
  apply list_elem_of_here.
Qed.

Lemma init_watch_log_ok h inp : watch_log_ok (init h inp).
Proof. split; simpl; [|done]. intros H. by apply elem_of_nil in H. Qed.

(** Split on every test the goal makes. *)
Ltac goal_cases :=
  repeat (match goal with
          | |- context [match ?x with _ => _ end] => destruct x eqn:?
          | |- context [if ?x then _ else _] => destruct x eqn:?
          end; simpl in * ).

Lemma step_watch_log_ok a s s' :
  control_ok s → counts_ok s → close_log_ok s → watch_log_ok s →
  sstep a s s' → watch_log_ok s'.
Proof.
  intros [Hin _ _ _ _ _ _ Hwatch _] [Hwg _] Hc [Hj Ht] Hs.
  pose proof (joined_logged _ Hc) as Hjl. clear Hc.
  pose proof (live_count_nonneg (requests s)) as Hnn.
  unfold inline_ok in Hin.
  split; by_statement Hs.
  all: repeat match goal with
       | L : ?l !! ?k = Some ?x |- _ => learn (Hin k x L)
       end; clear Hin.
  all: goal_cases; try assumption.
  all: try (rewrite elem_of_cons; intros [?|?]; simplify_eq/=); try by auto.
  all: use_pcs; specialize_trivial; simplify_eq/=; try by auto.
  - intros Hx. specialize (Hj Hx). by destruct sp.
  - intros; lia.
  - intros Hb%bool_decide_eq_true _. apply Nat.leb_le.
    destruct (4 <=? close_progress pc)%nat eqn:E.
    + exfalso. apply Hb, Hjl. done.
    + apply Nat.leb_gt in E. lia.
Qed.

Lemma unbind_received_cons e tr :
  unbind_received (e :: tr) ↔
  (∃ m, e = EvReceived m ∧ protocolOp m = UnbindRequest) ∨ unbind_received tr.
Proof.
  unfold unbind_received. split.
  - intros (m & [<-|Hm]%elem_of_cons & Hu); [left|right]; eauto.
  - intros [(m & -> & Hu)|(m & Hm & Hu)]; exists m; split; auto.
    + apply list_elem_of_here.
    + by apply list_elem_of_further.
Qed.

Lemma init_unbind_ok h inp : unbind_ok (init h inp).
Proof. intros (m & Hm & _). by apply elem_of_nil in Hm. Qed.

Lemma step_unbind_ok a s s' :
  control_ok s → unbind_ok s → sstep a s s' → unbind_ok s'.
Proof.
  unfold unbind_ok. intros [Hin _ _ _ _ _ _ _ _] Hu Hs. unfold inline_ok in Hin.
  by_statement Hs.
  all: repeat match goal with
       | L : ?l !! ?k = Some ?x |- _ => learn (Hin k x L)
       end; clear Hin.
  all: goal_cases; try assumption; try done.
  all: try (rewrite unbind_received_cons; intros [(m' & ? & ?)|?]; simplify_eq/=).
  all: try (unfold goes_async in *; simplify_eq/=; by auto).
  all: try (intros Hx; specialize (Hu Hx); use_pcs; specialize_trivial; simplify_eq/=; done).
  all: try congruence.
  all: unfold goes_async in *;
       repeat match goal with E : protocolOp _ = _ |- _ => rewrite E in * end;
       try by auto.
  all: match goal with Hx : unbind_received _ |- _ => specialize (Hu Hx) end;
       use_pcs; specialize_trivial; simplify_eq/=; done.
Qed.

(** [close] never goes back to reading: a step taken while the
    dispatcher is in [close] leaves it there, reads nothing and starts
    no request. *)
Lemma step_closing_down a s s' :
  control_ok s → closing_down (dpc s) = true → sstep a s s' →
  closing_down (dpc s') = true ∧ input s' = input s ∧
  length (requests s') = length (requests s).
Proof.
  intros [Hin _ _ _ _ _ _ _ _] Hd Hs. unfold inline_ok in Hin.
  by_statement Hs.
  all: repeat match goal with
       | L : ?l !! ?k = Some ?x |- _ => learn (Hin k x L)
       end; clear Hin.
  all: goal_cases; rewrite ?length_alter; try done.
  all: use_pcs; specialize_trivial; simplify_eq/=; done.
Qed.

Lemma init_done_ok h inp : done_ok (init h inp).
Proof. split; simpl; [done|]. intros tid x H. by rewrite lookup_nil in H. Qed.

Lemma step_done_ok a s s' :
  counts_ok s → close_log_ok s → done_ok s → sstep a s s' → done_ok s'.
Proof.
  intros [_ Hj] Hc [Ho Hl] Hs.
  pose proof (queue_closed_logged _ Hc) as Hq.
  pose proof (socket_closed_logged _ Hc) as Hk. clear Hc.
  split; by_statement Hs.
  all: repeat match goal with
       | L : ?l !! ?k = Some ?x |- _ => learn (live_count_lookup _ _ _ L)
       end.
  all: goal_cases; try assumption; try done.
  all: try (use_pcs; specialize_trivial; rewrite Hq, Hk;
            by (destruct pc; simpl in *; specialize_trivial; split_and!; try done; lia)).
  all: intros j hj Lj Hv.
  all: try (apply lookup_spawn in Lj as [Lj|[-> ->]]; [|done]).
  all: try (apply lookup_goto in Lj as [[? Lj]|[-> (h' & Lj & ->)]]; simplify_eq/=).
  all: try done.
  all: rewrite ?elem_of_cons; eauto.
Qed.

(** ** Every reachable state satisfies the invariants *)

Lemma init_inv h inp : inv (init h inp).
Proof.
  split; auto using init_control_ok, init_counts_ok, init_registry_ok,
    init_wire_ok, init_origin_ok, init_notice_ok, init_close_log_ok,
    init_watch_log_ok, init_unbind_ok, init_done_ok.
Qed.

Lemma step_inv a s s' : inv s → step a s = Next s' → inv s'.
Proof.
  intros [] Hs%step_sstep.
  split; eauto using step_control_ok, step_counts_ok, step_registry_ok,
    step_wire_ok, step_origin_ok, step_notice_ok, step_close_log_ok,
    step_watch_log_ok, step_unbind_ok, step_done_ok.
Qed.

Lemma run_inv acts s s' : inv s → run acts s = Next s' → inv s'.
Proof.
  revert s. induction acts as [|a acts IH]; intros s Hi Hr; simpl in Hr.
  - by simplify_eq.
  - destruct (step a s) as [s1| |] eqn:Hs; try done.
    eapply IH; [|done]. by eapply step_inv.
Qed.

Lemma reachable_inv h inp s : reachable h inp s → inv s.
Proof. intros [acts Hr]. eapply run_inv; [apply init_inv | done]. Qed.

Lemma run_app acts1 acts2 s s1 :
  run acts1 s = Next s1 → run (acts1 ++ acts2) s = run acts2 s1.
Proof.
  revert s. induction acts1 as [|a acts1 IH]; intros s Hr; simpl in *.
  - by simplify_eq.
  - destruct (step a s) as [s'| |]; try done. by apply IH.
Qed.

Lemma reachable_run h inp s acts s' :
  reachable h inp s → run acts s = Next s' → reachable h inp s'.
Proof.
  intros [acts0 H0] Hr. exists (acts0 ++ acts). by rewrite (run_app _ _ _ _ H0).
Qed.

(** The result of [HandleConnection] does not change. *)
Lemma step_handleConnection a s s' :
  sstep a s s' → handleConnection s' = handleConnection s.
Proof. intros Hs. by_statement Hs; goal_cases; done. Qed.

Lemma run_handleConnection acts s s' :
  run acts s = Next s' → handleConnection s' = handleConnection s.
Proof.
  revert s. induction acts as [|a acts IH]; intros s Hr; simpl in Hr.
  - by simplify_eq.
  - destruct (step a s) as [s1| |] eqn:Hs; try done.
    rewrite (IH _ Hr). eapply step_handleConnection, step_sstep, Hs.
Qed.

(** ** Request processors and the closures in the log *)



(** ** Shutdown and the notice of disconnection *)

(** C2, as stated, fails: in this session [Shutdown] is called while the
    session is live (it is still reading), the session closes its socket
    and ends, and no notice of disconnection was enqueued or written. *)
Lemma shutdown_notice_counterexample :
  ∃ s, run shutdown_race_schedule (init true [ReadMessage unbind2]) = Next s ∧
       trace s = [EvServerReleased; EvSocketClosed; EvWriteComplete;
                  EvQueueClosed; EvJoined; EvCancelAll; EvReaderWakeup;
                  EvClosingSignal; EvReceived unbind2; EvShutdown] ∧
       dpc s = DDone ∧ rwc_open s = false ∧ spc s = SExitClosing ∧
       watch_notices s = [] ∧ enq s = [] ∧ wire s = [].
Proof. eexists. split; [vm_compute; reflexivity|]. by repeat split. Qed.

Lemma notices_of_elem l m : m ∈ notices_of l → (FromWatch, m) ∈ l.
Proof.
  induction l as [|[[|k] x] l IH]; simpl; intros H.
  - by apply elem_of_nil in H.
  - apply elem_of_cons in H as [->|H]; [apply list_elem_of_here|].
    by apply list_elem_of_further, IH.
  - by apply list_elem_of_further, IH.
Qed.

(** C2, amended.  A session enqueues at most one notice, and it is the
    extended response with result code 53, diagnostic message
    "server is about to stop", response name 1.3.6.1.4.1.1466.20036 and
    message id 0.  If the watch goroutine takes its shutdown branch and
    joins the handler wait group before [close] gets past its wait, the
    notice is on the queue when the queue is closed, and it is on the
    wire when the socket is closed; a watch goroutine that takes the
    closing branch enqueues none.  In every case all that was enqueued
    has been written when the socket is closed. *)
Theorem shutdown_notice_amended h inp acts s :
  run acts (init h inp) = Next s →
  (watch_notices s = [] ∨ watch_notices s = [shutdownNotice]) ∧
  shutdownNotice =
    {| messageID := 0;
       protocolOp := OpExtendedResponse
         {| resultCode := 53; diagnosticMessage := "server is about to stop";
            responseName := "1.3.6.1.4.1.1466.20036" |} |} ∧
  (timely (trace s) = true → chanOut s = ChanClosed →
   watch_notices s = [shutdownNotice] ∧ (FromWatch, shutdownNotice) ∈ enq s) ∧
  (timely (trace s) = true → rwc_open s = false → shutdownNotice ∈ wire s) ∧
  (spc s = SExitClosing → watch_notices s = []) ∧
  (rwc_open s = false → wire s = (enq s).*2).
Proof.
  intros Hr. assert (inv s) as Hi by (eapply reachable_inv; by eexists).
  destruct Hi as [Hco _ _ Hw _ Hn _ [Hj Ht] _ _].
  unfold notice_ok in Hn. unfold wire_ok in Hw.
  assert (rwc_open s = false → wire s = (enq s).*2) as Hall.
  { intros Hclosed. destruct Hco as [_ _ _ _ Hrwc _ Hwr _ _].
    rewrite Hrwc in Hclosed. apply Nat.leb_gt in Hclosed.
    destruct (wpc s) eqn:E; try done.
    unfold writer_ok in Hwr. apply andb_prop in Hwr as [_ Hwr].
    apply Nat.leb_le in Hwr. lia. }
  assert (timely (trace s) = true → (5 <=? close_progress (dpc s))%nat = true →
          watch_notices s = [shutdownNotice]) as Hsent.
  { intros Htm Hp. rewrite Hn.
    pose proof (Hj (timely_joined _ Htm)) as Hjoined.
    specialize (Ht Htm). apply Nat.leb_le in Hp.
    destruct (spc s); simpl in *; try done;
      specialize (Ht eq_refl); apply Nat.leb_le in Ht; lia. }
  split_and!.
  - rewrite Hn. destruct (watch_sent (spc s)); auto.
  - reflexivity.
  - intros Htm Hq.
    assert (watch_notices s = [shutdownNotice]) as Hx.
    { apply Hsent; [done|]. destruct Hco as [_ _ Hch _ _ _ _ _ _].
      rewrite Hch in Hq. by destruct (dpc s), (handleConnection s). }
    split; [done|]. apply notices_of_elem. unfold watch_notices in Hx.
    rewrite Hx. apply list_elem_of_here.
  - intros Htm Hclosed. rewrite (Hall Hclosed).
    assert (watch_notices s = [shutdownNotice]) as Hx.
    { apply Hsent; [done|]. destruct Hco as [_ _ _ _ Hrwc _ _ _ _].
      rewrite Hrwc in Hclosed. apply Nat.leb_gt in Hclosed.
      apply Nat.leb_le. lia. }
    apply (list_elem_of_fmap_2 snd _ (FromWatch, shutdownNotice)).
    apply notices_of_elem. unfold watch_notices in Hx. rewrite Hx.
    apply list_elem_of_here.
  - intros E. rewrite Hn, E. done.
  - done.
Qed.

Lemma shutdown_notice_amended_witness :
  ∃ s, run graceful_shutdown_schedule (init true [ReadMessage search5]) = Next s ∧
       timely (trace s) = true ∧ rwc_open s = false ∧ dpc s = DDone ∧
       shutdownNotice ∈ wire s.
Proof.
  eexists. split; [vm_compute; reflexivity|].
  split; [reflexivity|]. split; [reflexivity|]. split; [reflexivity|].
  eapply (shutdown_notice_amended true [ReadMessage search5]
            graceful_shutdown_schedule); [vm_compute; reflexivity | reflexivity | reflexivity].
Defined.

(** What the amended claim leaves out: a watch goroutine that joins the
    wait group only after [wg.Wait()] has returned sends on the closed
    queue, and the process panics. *)
Lemma late_join_panics :
  run late_join_schedule (init true [ReadMessage unbind2]) =
  Panic "send on closed channel".
Proof. reflexivity. Qed.

(** ** Abandon *)

(** C3. When the dispatcher reads an abandon request for message id [t]:
    if [t] is registered, its cancel function is called and its entry is
    deleted; if not, the registry, and the set of cancelled contexts,
    are as before.  Either way the dispatcher stays in its loop, starts
    no request processor, leaves the wait group alone, and puts nothing
    on the queue or the wire. *)
Theorem abandon_dispatch s m rest t :
  dpc s = DLoop → input s = ReadMessage m :: rest →
  protocolOp m = AbandonRequest t →
  ∃ s', step ADispatcher s = Next s' ∧
    (∀ ctx, registry s !! t = Some ctx →
       ctx ∈ cancelled s' ∧ registry s' = delete t (registry s)) ∧
    (registry s !! t = None →
       requestCancel s' = requestCancel s ∧ cancelled s' = cancelled s) ∧
    dpc s' = DLoop ∧ requests s' = requests s ∧ wg s' = wg s ∧
    enq s' = enq s ∧ wire s' = wire s ∧ wpc s' = wpc s.
Proof.
  intros Hpc Hin Hop. eexists. split.
  { simpl. unfold dispatcher_step. rewrite Hpc, Hin. unfold dispatch.
    rewrite Hop. reflexivity. }
  unfold cancelMessageID, registry. simpl.
  destruct (default ∅ (requestCancel s) !! t) as [ctx'|] eqn:E; simpl.
  - split_and!; try done.
    intros ctx [= <-]. split; [set_solver|].
    destruct (requestCancel s); simpl in *; [done|].
    by rewrite lookup_empty in E.
  - split_and!; done.
Qed.

Lemma abandon_dispatch_witness :
  ∃ s', step ADispatcher (serving_search [ReadMessage abandon5]) = Next s' ∧
        0%nat ∈ cancelled s' ∧ registry s' = ∅ ∧ enq s' = [] ∧
        length (requests s') = 1%nat.
Proof.
  destruct (abandon_dispatch (serving_search [ReadMessage abandon5]) abandon5 [] 5)
    as (s' & Hs & Hhit & _ & _ & Hreq & _ & Henq & _); [reflexivity..|].
  exists s'. split; [done|].
  destruct (Hhit 0%nat) as [Hc Hr]; [reflexivity|].
  rewrite Hr, Henq, Hreq. by repeat split.
Defined.

(** ** A message id registered twice *)

(** C10. If a request registers under an id that is already registered,
    the registry now holds the second request's cancel function under
    that id and the first one's is no longer under it.  The deferred
    delete of whichever of the two returns first removes the entry, and
    from then on an abandon request for the id finds nothing: it cancels
    no context and changes nothing. *)
Theorem duplicate_id_loses_cancel s id c1 c2 :
  registry s !! id = Some c1 → c1 ≠ c2 →
  registry (registerCancel id c2 s) !! id = Some c2 ∧
  registry (registerCancel id c2 s) !! id ≠ Some c1 ∧
  registry (deregisterCancel id (registerCancel id c2 s)) !! id = None ∧
  cancelMessageID id (deregisterCancel id (registerCancel id c2 s)) =
    deregisterCancel id (registerCancel id c2 s) ∧
  cancelled (cancelMessageID id (deregisterCancel id (registerCancel id c2 s))) =
    cancelled s.
Proof.
  intros H1 Hne.
  assert (registry (registerCancel id c2 s) !! id = Some c2) as Hreg.
  { unfold registry, registerCancel. simpl. apply lookup_insert_eq. }
  assert (registry (deregisterCancel id (registerCancel id c2 s)) !! id = None) as Hdel.
  { unfold registry, deregisterCancel, registerCancel. simpl. apply lookup_delete_eq. }
  split_and!; try done.
  - rewrite Hreg. congruence.
  - unfold cancelMessageID. by rewrite Hdel.
  - unfold cancelMessageID. by rewrite Hdel.
Qed.

Lemma duplicate_id_loses_cancel_witness :
  registry (serving_search []) !! 5 = Some 0%nat ∧
  registry (registerCancel 5 1%nat (serving_search [])) !! 5 = Some 1%nat ∧
  cancelled (cancelMessageID 5
     (deregisterCancel 5 (registerCancel 5 1%nat (serving_search [])))) = ∅.
Proof.
  destruct (duplicate_id_loses_cancel (serving_search []) 5 0%nat 1%nat)
    as (H1 & _ & _ & _ & H5); [reflexivity | lia |].
  split; [reflexivity|]. split; [exact H1|]. rewrite H5. reflexivity.
Defined.

(** The same on the machine: after the first of two requests with id 5
    has run its deferred delete, an abandon request for 5 leaves the
    second one, still being served, uncancelled. *)
Lemma duplicate_id_run :
  ∃ s, run duplicate_id_schedule
         (init true [ReadMessage search5; ReadMessage search5; ReadMessage abandon5])
       = Next s ∧
       (h_pc <$> requests s) = [HCancel; HServing] ∧
       registry s = ∅ ∧ cancelled s = ∅.
Proof. eexists. split; [vm_compute; reflexivity|]. by repeat split. Qed.

(** ** The registry and the requests in flight *)

(** C8, as stated, fails: after an abandon request for id 5 the search
    with id 5 is still between its registration and its deferred delete,
    and the registry is empty. *)
Lemma registry_equality_counterexample :
  ∃ s, run [ADispatcher; ADispatcher; ARequest 0; ADispatcher]
         (init true [ReadMessage search5; ReadMessage abandon5]) = Next s ∧
       (h_pc <$> requests s) = [HServing] ∧
       registry s = ∅ ∧ in_flight_ids s = {[ 5 ]} ∧
       dom (registry s) ≠ in_flight_ids s.
Proof.
  eexists. split; [vm_compute; reflexivity|].
  split; [reflexivity|]. split; [reflexivity|]. split; [reflexivity|].
  intros H. apply (f_equal (λ X : gset Z, bool_decide (5 ∈ X))) in H.
  vm_compute in H. discriminate.
Qed.

Lemma registered_in_flight s id ctx :
  registry_ok s → registry s !! id = Some ctx → id ∈ in_flight_ids s.
Proof.
  intros Hreg Hl. destruct (Hreg _ _ Hl) as (h & Hh & Hid & Hr).
  unfold in_flight_ids. apply elem_of_list_to_set, list_elem_of_fmap.
  exists h. split; [done|]. apply list_elem_of_filter. split; [done|].
  by eapply list_elem_of_lookup_2.
Qed.

Lemma registry_step_change a s s' id :
  sstep a s s' → registry s' !! id ≠ registry s !! id →
  registry_change s id a (registry s' !! id).
Proof.
  intros Hs. by_statement Hs; goal_cases; try done.
  all: simpl in *.
  - (* abandon, hit *)
    destruct rc as [reg|]; simpl in *; [|by rewrite lookup_empty in *].
    intros Hne. destruct (decide (id = t)) as [->|Hd].
    + rewrite lookup_delete_eq. eapply change_abandon; eauto.
    + by rewrite lookup_delete_ne in Hne.
  - (* close *)
    intros Hne. destruct rc as [reg|]; simpl in *; [|done].
    rewrite lookup_empty. by apply change_close.
  - (* register *)
    intros Hne. destruct (decide (id = messageID (h_msg h))) as [->|Hd].
    + rewrite lookup_insert_eq. eapply change_register; eauto.
    + by rewrite lookup_insert_ne in Hne.
  - (* deferred delete *)
    intros Hne. destruct rc as [reg|]; simpl in *; [|done].
    destruct (decide (id = messageID (h_msg h))) as [->|Hd].
    + rewrite lookup_delete_eq. eapply change_completion; eauto.
    + by rewrite lookup_delete_ne in Hne.
Qed.

(** C8, amended.  Every registered id is the id of an activation that
    has registered and not yet run its deferred delete, and the entry's
    cancel function is that activation's; the other inclusion does not
    hold.  [ProcessRequestMessage] stores its cancel function under its
    message id, creating the map when it is nil, before the handler
    runs, and deletes the id when the handler has returned.  An entry
    changes in a step only by such a registration, or is removed by the
    deferred delete, by an abandon request for its id, or by [close]. *)
Theorem registry_amended h inp acts s :
  run acts (init h inp) = Next s →
  dom (registry s) ⊆ in_flight_ids s ∧
  (∀ id ctx, registry s !! id = Some ctx →
     ∃ x, requests s !! ctx = Some x ∧ messageID (h_msg x) = id ∧
          is_registered x = true) ∧
  (∀ tid x, requests s !! tid = Some x → h_pc x = HStart →
     ∃ s', step (ARequest tid) s = Next s' ∧
           requestCancel s' = Some (<[messageID (h_msg x) := tid]> (registry s)) ∧
           requests s' !! tid = Some (set_h_pc HServing x)) ∧
  (∀ tid x, requests s !! tid = Some x → h_pc x = HReturned →
     ∃ s', step (ARequest tid) s = Next s' ∧
           registry s' = delete (messageID (h_msg x)) (registry s)) ∧
  (∀ a s' id, step a s = Next s' → registry s' !! id ≠ registry s !! id →
     registry_change s id a (registry s' !! id)).
Proof.
  intros Hr. assert (inv s) as Hi by (eapply reachable_inv; by eexists).
  pose proof (inv_registry _ Hi) as Hreg.
  split_and!.
  - intros id [ctx Hl]%elem_of_dom. by eapply registered_in_flight.
  - apply Hreg.
  - intros tid x Hx Hpc. eexists. split.
    { simpl. unfold request_step. rewrite Hx, Hpc. reflexivity. }
    simpl. split; [done|]. rewrite list_lookup_alter_eq, Hx. done.
  - intros tid x Hx Hpc. eexists. split.
    { simpl. unfold request_step. rewrite Hx, Hpc. reflexivity. }
    unfold registry. simpl. destruct (requestCancel s); simpl; [done|].
    by rewrite delete_empty.
  - intros a s' id Hs Hne. apply step_sstep in Hs.
    by apply registry_step_change.
Qed.

Lemma registry_amended_witness :
  ∃ s, run [ADispatcher; ADispatcher; ARequest 0; ADispatcher]
         (init true [ReadMessage search5; ReadMessage abandon5]) = Next s ∧
       dom (registry s) ⊆ in_flight_ids s.
Proof.
  eexists. split; [vm_compute; reflexivity|].
  eapply (registry_amended true [ReadMessage search5; ReadMessage abandon5]
            [ADispatcher; ADispatcher; ARequest 0; ADispatcher]).
  vm_compute; reflexivity.
Defined.

(** ** Unbind *)

Lemma fmap_goto (l : list activation) tid pc :
  h_msg <$> alter (set_h_pc pc) tid l = h_msg <$> l.
Proof.
  revert tid. induction l as [|x l IH]; intros [|tid]; simpl; try done.
  f_equal. apply IH.
Qed.

Lemma step_closing_msgs a s s' :
  control_ok s → closing_down (dpc s) = true → sstep a s s' →
  h_msg <$> requests s' = h_msg <$> requests s.
Proof.
  intros [Hin _ _ _ _ _ _ _ _] Hd Hs. unfold inline_ok in Hin.
  by_statement Hs; goal_cases; rewrite ?fmap_goto; done.
Qed.

Lemma run_closing_down acts s s' :
  inv s → closing_down (dpc s) = true → run acts s = Next s' →
  closing_down (dpc s') = true ∧ input s' = input s ∧
  h_msg <$> requests s' = h_msg <$> requests s.
Proof.
  revert s. induction acts as [|a acts IH]; intros s Hi Hd Hr; simpl in Hr.
  - by simplify_eq.
  - destruct (step a s) as [s1| |] eqn:Hs; try done.
    pose proof (step_inv _ _ _ Hi Hs) as Hi1.
    apply step_sstep in Hs.
    destruct (step_closing_down _ _ _ (inv_control _ Hi) Hd Hs) as (Hd1 & Hin1 & _).
    pose proof (step_closing_msgs _ _ _ (inv_control _ Hi) Hd Hs) as Hm1.
    destruct (IH s1 Hi1 Hd1 Hr) as (? & ? & ?).
    split_and!; [done | congruence | congruence].
Qed.

(** C4, as stated, fails: the handler of the search with id 5 is still
    running when the unbind request is read; it writes an entry, and the
    writer puts it on the socket, after the unbind was received. *)
Lemma unbind_silence_counterexample :
  ∃ s1 s2,
    run [ADispatcher; ADispatcher; ARequest 0; ADispatcher]
      (init true [ReadMessage search5; ReadMessage unbind2]) = Next s1 ∧
    unbind_received (trace s1) ∧ wire s1 = [] ∧
    run [AHandlerWrite 0 (SearchResultEntry "cn=a"); AWriter] s1 = Next s2 ∧
    wire s2 = [{| messageID := 5; protocolOp := SearchResultEntry "cn=a" |}].
Proof.
  eexists _, _. split; [vm_compute; reflexivity|].
  split.
  { exists unbind2. split; [|reflexivity]. apply list_elem_of_here. }
  split; [reflexivity|]. split; [vm_compute; reflexivity|]. reflexivity.
Qed.

(** C4, amended.  Reading an unbind request takes the dispatcher out of
    its loop into [close] without putting anything on the queue.  From
    then on the dispatcher stays in [close], reads no further message
    and starts no further request; what is written to the socket
    afterwards is the shutdown notice or comes from the handler of a
    request that was dispatched before the unbind. *)
Theorem unbind_amended h inp acts1 s1 acts2 s2 :
  run acts1 (init h inp) = Next s1 → unbind_received (trace s1) →
  run acts2 s1 = Next s2 →
  closing_down (dpc s1) = true ∧ closing_down (dpc s2) = true ∧
  input s2 = input s1 ∧ length (requests s2) = length (requests s1) ∧
  (∀ m, m ∈ wire s2 →
     m = shutdownNotice ∨
     ∃ tid x po, requests s1 !! tid = Some x ∧
                 m = wrap {| w_messageID := messageID (h_msg x) |} po) ∧
  (∀ s m rest, dpc s = DLoop → input s = ReadMessage m :: rest →
     protocolOp m = UnbindRequest →
     ∃ s', step ADispatcher s = Next s' ∧ dpc s' = CSignal ∧
           enq s' = enq s ∧ wpc s' = wpc s ∧ wire s' = wire s ∧
           requests s' = requests s).
Proof.
  intros Hr1 Hu Hr2.
  assert (inv s1) as Hi1 by (eapply reachable_inv; by eexists).
  assert (inv s2) as Hi2 by (eapply run_inv; eauto).
  pose proof (inv_unbind _ Hi1 Hu) as Hd1.
  destruct (run_closing_down _ _ _ Hi1 Hd1 Hr2) as (Hd2 & Hin & Hmsgs).
  split_and!; try done.
  - by rewrite <- (length_fmap h_msg (requests s2)), Hmsgs, length_fmap.
  - intros m Hm.
    assert (∃ o, (o, m) ∈ enq s2) as [o Ho].
    { pose proof (inv_wire _ Hi2) as Hw. unfold wire_ok in Hw.
      destruct (wpc s2) eqn:E;
        try (rewrite Hw in Hm; apply list_elem_of_fmap in Hm as ([o m'] & -> & Hm);
             by exists o).
      destruct Hw as (o & rest' & He & Hw). rewrite Hw in Hm.
      apply list_elem_of_fmap in Hm as ([o' m'] & -> & Hm).
      exists o'. rewrite He. by apply list_elem_of_further. }
    pose proof (inv_origin _ Hi2 _ _ Ho) as Hor.
    destruct o as [|tid]; [by left|]. right.
    destruct Hor as (x2 & po & Hx2 & ->).
    assert ((h_msg <$> requests s1) !! tid = Some (h_msg x2)) as Hx1.
    { rewrite <- Hmsgs, list_lookup_fmap, Hx2. done. }
    rewrite list_lookup_fmap in Hx1.
    destruct (requests s1 !! tid) as [x1|] eqn:E; simplify_eq/=.
    exists tid, x1, po. split; [done|]. congruence.
  - intros s m rest Hpc Hin' Hop. eexists. split.
    { simpl. unfold dispatcher_step. rewrite Hpc, Hin'. unfold dispatch.
      rewrite Hop. reflexivity. }
    done.
Qed.

Lemma unbind_amended_witness :
  ∃ s1 s2,
    run [ADispatcher; ADispatcher; ARequest 0; ADispatcher]
      (init true [ReadMessage search5; ReadMessage unbind2]) = Next s1 ∧
    unbind_received (trace s1) ∧
    run [AHandlerWrite 0 (SearchResultEntry "cn=a"); AWriter] s1 = Next s2 ∧
    closing_down (dpc s2) = true ∧ input s2 = input s1.
Proof.
  eexists _, _. split; [vm_compute; reflexivity|].
  assert (unbind_received
            [EvReceived unbind2; EvReceived search5]) as Hu.
  { exists unbind2. split; [|reflexivity]. apply list_elem_of_here. }
  split; [exact Hu|]. split; [vm_compute; reflexivity|].
  destruct (unbind_amended true [ReadMessage search5; ReadMessage unbind2]
              [ADispatcher; ADispatcher; ARequest 0; ADispatcher] _
              [AHandlerWrite 0 (SearchResultEntry "cn=a"); AWriter] _
              ltac:(vm_compute; reflexivity) Hu ltac:(vm_compute; reflexivity))
    as (_ & Hd & Hin & _).
  split; [exact Hd | exact Hin].
Defined.

(** ** StartTLS *)

Lemma init_inline_call_ok h inp : inline_call_ok (init h inp).
Proof. split; simpl; [done|]. intros tid x H. by rewrite lookup_nil in H. Qed.

Lemma step_inline_call_ok a s s' :
  control_ok s → inline_call_ok s → sstep a s s' → inline_call_ok s'.
Proof.
  intros [Hin _ _ _ _ _ _ _ _] [Hc Ht] Hs. unfold inline_ok in Hin.
  split; by_statement Hs.
  all: goal_cases; try assumption; try done.
  all: intros j.
  all: try (intros xj Lj Hj;
            try (apply lookup_spawn in Lj as [Lj|[-> ->]]; simplify_eq/=);
            try (apply lookup_goto in Lj as [[? Lj]|[-> (x' & Lj & ->)]]; simplify_eq/=);
            by eauto).
  all: intros Hj; simplify_eq/=.
  all: try (eexists; split; [apply list_lookup_middle; done | done]).
  all: destruct (Hc _ eq_refl) as (x & Lx & Hix & Hlx).
  all: erewrite goto_lookup by eassumption; case_decide; simplify_eq/=.
  all: try by eauto.
  all: use_pcs; by eauto.
Qed.

Lemma step_exit_stable a s s' tid x :
  sstep a s s' → requests s !! tid = Some x → live x = false →
  ∃ x', requests s' !! tid = Some x' ∧ live x' = false.
Proof.
  intros Hs. by_statement Hs; goal_cases; intros Lx Hx; eauto.
  all: try (eexists; split; [by apply lookup_app_l_Some | done]).
  all: erewrite goto_lookup by eassumption; case_decide; simplify_eq/=; eauto.
  all: use_pcs; done.
Qed.

Lemma run_exit_stable acts s s' tid x :
  run acts s = Next s' → requests s !! tid = Some x → live x = false →
  ∃ x', requests s' !! tid = Some x' ∧ live x' = false.
Proof.
  revert s x. induction acts as [|a acts IH]; intros s x Hr Lx Hx; simpl in Hr.
  - simplify_eq. eauto.
  - destruct (step a s) as [s1| |] eqn:Hs; try done.
    apply step_sstep in Hs.
    destruct (step_exit_stable _ _ _ _ _ Hs Lx Hx) as (x1 & L1 & H1).
    by eapply IH.
Qed.

(** A step taken while the dispatcher is inside the inline call either
    leaves it there, with nothing read and nothing dispatched, or is the
    end of that call. *)
Lemma step_inline_call a s s' tid :
  control_ok s → dpc s = DInline tid → sstep a s s' →
  (dpc s' = DInline tid ∧ input s' = input s ∧
   length (requests s') = length (requests s)) ∨
  (∃ x, requests s' !! tid = Some x ∧ live x = false).
Proof.
  intros [Hin _ _ _ _ _ _ _ _] Hd Hs. unfold inline_ok in Hin.
  by_statement Hs.
  all: repeat match goal with
       | L : ?l !! ?k = Some ?x |- _ => learn (Hin k x L)
       end; clear Hin.
  all: goal_cases; rewrite ?length_alter; try by left.
  all: use_pcs; specialize_trivial; simplify_eq/=.
  all: right; eexists; rewrite list_lookup_alter_eq;
       match goal with L : _ !! _ = Some _ |- _ => rewrite L end; done.
Qed.

Lemma run_inline_call acts s s' tid x' :
  inv s → dpc s = DInline tid → run acts s = Next s' →
  requests s' !! tid = Some x' → live x' = true →
  dpc s' = DInline tid ∧ input s' = input s ∧
  length (requests s') = length (requests s).
Proof.
  revert s. induction acts as [|a acts IH]; intros s Hi Hd Hr Lx Hx; simpl in Hr.
  - by simplify_eq.
  - destruct (step a s) as [s1| |] eqn:Hs; try done.
    pose proof (step_inv _ _ _ Hi Hs) as Hi1. apply step_sstep in Hs.
    destruct (step_inline_call _ _ _ _ (inv_control _ Hi) Hd Hs)
      as [(Hd1 & Hin1 & Hlen1)|(x1 & L1 & H1)].
    + destruct (IH s1 Hi1 Hd1 Hr Lx Hx) as (? & ? & ?).
      split_and!; [done | congruence | congruence].
    + destruct (run_exit_stable _ _ _ _ _ Hr L1 H1) as (x2 & L2 & H2).
      simplify_eq. congruence.
Qed.

Lemma run_inline_call_ok acts s s' :
  inv s → inline_call_ok s → run acts s = Next s' → inline_call_ok s'.
Proof.
  revert s. induction acts as [|a acts IH]; intros s Hi Hc Hr; simpl in Hr.
  - by simplify_eq.
  - destruct (step a s) as [s1| |] eqn:Hs; try done.
    eapply (IH s1); [by eapply step_inv | | done].
    eapply step_inline_call_ok; [apply Hi | done | by apply step_sstep].
Qed.

(** C5. On an extended request whose name is the StartTLS OID the
    dispatcher adds one to the handler wait group and runs
    [ProcessRequestMessage] itself: the activation is marked inline and
    the dispatcher's program counter is inside that call.  While it is
    there it neither reads nor times out, and as long as the activation
    has not finished, whatever the other goroutines do, no further
    message has been read and no further request dispatched. *)
Theorem starttls_inline h inp acts s :
  run acts (init h inp) = Next s →
  (∀ m rest, dpc s = DLoop → input s = ReadMessage m :: rest →
     protocolOp m = ExtendedRequest NoticeOfStartTLS →
     ∃ s', step ADispatcher s = Next s' ∧ wg s' = wg s + 1 ∧
           dpc s' = DInline (length (requests s)) ∧
           requests s' =
             requests s ++ [{| h_msg := m; h_inline := true; h_pc := HStart |}]) ∧
  (∀ tid, dpc s = DInline tid →
     step ADispatcher s = Blocked ∧ step ATimeout s = Blocked ∧
     (∃ x, requests s !! tid = Some x ∧ h_inline x = true ∧ live x = true ∧
           protocolOp (h_msg x) = ExtendedRequest NoticeOfStartTLS) ∧
     (∀ acts' s' x', run acts' s = Next s' →
        requests s' !! tid = Some x' → live x' = true →
        dpc s' = DInline tid ∧ input s' = input s ∧
        length (requests s') = length (requests s))).
Proof.
  intros Hr. assert (inv s) as Hi by (eapply reachable_inv; by eexists).
  assert (inline_call_ok s) as [Hc Ht].
  { eapply run_inline_call_ok; [apply init_inv | apply init_inline_call_ok | done]. }
  split.
  - intros m rest Hpc Hin Hop. eexists. split.
    { simpl. unfold dispatcher_step. rewrite Hpc, Hin. unfold dispatch.
      rewrite Hop. rewrite decide_True by done. reflexivity. }
    done.
  - intros tid Hd. split_and!.
    + simpl. unfold dispatcher_step. by rewrite Hd.
    + simpl. unfold timeout_step. by rewrite Hd.
    + destruct (Hc tid Hd) as (x & Lx & Hix & Hlx). eauto 10.
    + intros acts' s' x' Hr' Lx' Hx'. by eapply run_inline_call.
Qed.

Lemma starttls_inline_witness :
  ∃ s, run [ADispatcher; ADispatcher; ARequest 0]
         (init true [ReadMessage starttls1; ReadMessage bind1]) = Next s ∧
       dpc s = DInline 0 ∧ step ADispatcher s = Blocked ∧
       input s = [ReadMessage bind1].
Proof.
  eexists. split; [vm_compute; reflexivity|]. split; [reflexivity|].
  split; [|reflexivity].
  eapply (starttls_inline true [ReadMessage starttls1; ReadMessage bind1]
            [ADispatcher; ADispatcher; ARequest 0]);
    [vm_compute; reflexivity | reflexivity].
Defined.

(** ** A connection the embedder declines *)

(** Whatever the schedule, a declined connection never gets through
    [close]: its socket stays open and the server's wait group is never
    released. *)
Lemma declined_never_closes inp acts s :
  run acts (init false inp) = Next s →
  dpc s ≠ DDone ∧ rwc_open s = true ∧ srv_wg s = 1.
Proof.
  intros Hr. assert (inv s) as Hi by (eapply reachable_inv; by eexists).
  pose proof (run_handleConnection _ _ _ Hr) as Hh. simpl in Hh.
  destruct (inv_control _ Hi) as [_ _ _ _ Hrwc Hsrv _ _ Hdec].
  rewrite Hh in Hdec. simpl in Hdec. apply andb_prop in Hdec as [Hp _].
  apply Nat.leb_le in Hp.
  assert (dpc s ≠ DDone) as Hne by (intros E; rewrite E in Hp; simpl in Hp; lia).
  split_and!; [done | |].
  - rewrite Hrwc. apply Nat.leb_le. lia.
  - rewrite Hsrv. by rewrite decide_False.
Qed.

(** C6 fails on the code.  When [HandleConnection] returns nil, [serve]
    returns before [chanOut] and [writeDone] are made, and the deferred
    [close] reaches [close(c.chanOut)] on a nil channel: the process
    panics.  The six dispatcher statements are: the nil check, then
    [close]'s closing signal, read deadline, cancel loop, [wg.Wait()],
    and [close(c.chanOut)]. *)
Theorem declined_connection_panics inp :
  run [ADispatcher; ADispatcher; ADispatcher; ADispatcher; ADispatcher;
       ADispatcher] (init false inp) = Panic "close of nil channel".
Proof. reflexivity. Qed.

(** ** Writing after the queue is closed *)

(** C7, as stated, fails: after the sample session has closed, a write
    through the response writer that the bind handler was given
    panics. *)
Lemma late_write_counterexample :
  ∃ s, run bind_unbind_schedule
         (init true [ReadMessage bind1; ReadMessage unbind2]) = Next s ∧
       chanOut s = ChanClosed ∧
       Write 0 {| w_messageID := 1 |} (BindResponse 0) s =
         Panic "send on closed channel".
Proof. eexists. split; [vm_compute; reflexivity|]. by split. Qed.

(** C7, amended.  A write through the response writer once the queue is
    closed is not swallowed: the send panics.  The close protocol keeps
    the queue open as long as any activation of
    [ProcessRequestMessage] has not finished, so a handler that writes
    only while its [ServeLDAP] call runs never writes to a closed
    queue. *)
Theorem late_write_amended h inp acts s :
  run acts (init h inp) = Next s →
  (chanOut s = ChanClosed →
   ∀ who w po, Write who w po s = Panic "send on closed channel") ∧
  (∀ tid x, requests s !! tid = Some x → live x = true →
            chanOut s ≠ ChanClosed) ∧
  (∀ tid po s', step (AHandlerWrite tid po) s = Next s' →
     chanOut s = ChanOpen ∧
     ∃ x, requests s !! tid = Some x ∧ h_pc x = HServing ∧
          enq s' = (FromHandler tid, wrap {| w_messageID := messageID (h_msg x) |} po)
                   :: enq s).
Proof.
  intros Hr. assert (inv s) as Hi by (eapply reachable_inv; by eexists).
  split_and!.
  - intros Hc who w po. unfold Write, chan_send. by rewrite Hc.
  - intros tid x Lx Hx Hc.
    destruct (inv_control _ Hi) as [_ _ Hch _ _ _ _ _ _].
    destruct (inv_counts _ Hi) as [_ Hj].
    assert ((4 <=? close_progress (dpc s))%nat = true) as Hp.
    { rewrite Hch in Hc. by destruct (dpc s), (handleConnection s). }
    pose proof (live_count_zero _ _ _ (Hj Hp) Lx). congruence.
  - intros tid po s' Hs. apply step_sstep in Hs. inversion Hs; subst.
    split; [done|]. eexists. split; [done|]. split; done.
Qed.

Lemma late_write_amended_witness :
  ∃ s, run bind_unbind_schedule
         (init true [ReadMessage bind1; ReadMessage unbind2]) = Next s ∧
       chanOut s = ChanClosed ∧
       ∀ who w po, Write who w po s = Panic "send on closed channel".
Proof.
  eexists. split; [vm_compute; reflexivity|]. split; [reflexivity|].
  eapply (late_write_amended true [ReadMessage bind1; ReadMessage unbind2]
            bind_unbind_schedule); [vm_compute; reflexivity | reflexivity].
Defined.

(** ** What a write does *)










(** ** [close] can always get to its end *)

















(** The phases of a session, last first: from each there is a schedule
    to the next. *)






















(** ** The close protocol, in order *)


(** ** More invariants of a session *)

(** ** Contexts are cancelled after registration and before the end *)

Lemma init_cancel_ok h inp : cancel_ok (init h inp).
Proof.
  split; simpl.
  - intros tid H. by apply not_elem_of_empty in H.
  - intros tid x H. by rewrite lookup_nil in H.
Qed.

Lemma started_goto (l : list activation) tid h pc j y :
  l !! tid = Some h → l !! j = Some y → h_pc y ≠ HStart → pc ≠ HStart →
  ∃ y', alter (set_h_pc pc) tid l !! j = Some y' ∧ h_pc y' ≠ HStart.
Proof.
  intros Lt Lj Hy Hpc. rewrite (goto_lookup _ _ _ _ _ _ Lt Lj).
  eexists. split; [done|]. by case_decide.
Qed.

Lemma registered_started (x : activation) : is_registered x = true → h_pc x ≠ HStart.
Proof. unfold is_registered. by destruct (h_pc x). Qed.

Lemma step_cancel_created a s s' :
  registry_ok s →
  (∀ tid, tid ∈ cancelled s → ∃ x, requests s !! tid = Some x ∧ h_pc x ≠ HStart) →
  sstep a s s' →
  (∀ tid, tid ∈ cancelled s' → ∃ x, requests s' !! tid = Some x ∧ h_pc x ≠ HStart).
Proof.
  intros Hreg Hc Hs. unfold registry_ok in Hreg.
  by_statement Hs; goal_cases; try assumption.
  all: intros j Hj.
  all: rewrite ?elem_of_union, ?elem_of_singleton, ?elem_of_map_img in Hj.
  all: lazymatch goal with reqs : list activation |- _ =>
    assert (∃ y, reqs !! j = Some y ∧ h_pc y ≠ HStart) as (y & Ly & Hy) end;
    [ destruct_or?; try (lazymatch type of Hj with ex _ => destruct Hj as [i Hi] end); simplify_eq/=;
      first [ by apply Hc
            | match goal with
              | E : _ !! _ = Some _ |- ∃ _, _ !! ?k = _ ∧ _ =>
                  lazymatch type of E with
                  | @lookup _ _ (gmap _ _) _ _ _ = _ =>
                      destruct (Hreg _ _ E) as (y & Ly & _ & Hy%registered_started);
                      by eauto
                  end
              end
            | eexists; split; [eassumption|congruence]
            | idtac ]
    | ].
  all: try (by eauto).
  all: try (eexists; split; [by apply lookup_app_l_Some | done]).
  all: try (by eapply started_goto).

Qed.

Lemma step_cancel_released a s s' :
  (∀ tid x, requests s !! tid = Some x →
     h_pc x = HRelease ∨ h_pc x = HExit → tid ∈ cancelled s) →
  sstep a s s' →
  (∀ tid x, requests s' !! tid = Some x →
     h_pc x = HRelease ∨ h_pc x = HExit → tid ∈ cancelled s').
Proof.
  intros Hr Hs.
  by_statement Hs; goal_cases; try assumption.
  all: intros j y Ly Hy.
  all: rewrite ?elem_of_union, ?elem_of_singleton.
  all: try (apply lookup_spawn in Ly as [Ly|[-> ->]];
            [|by destruct Hy]).
  all: try (apply lookup_goto in Ly as [[Hne Ly]|[-> (h' & Lh & ->)]];
            [|simplify_eq/=; first [by destruct Hy | by left | by eauto]]).
  all: eauto.
Qed.

Lemma step_cancel_ok a s s' :
  registry_ok s → cancel_ok s → sstep a s s' → cancel_ok s'.
Proof.
  intros Hreg [Hc Hr] Hs. split.
  - by eapply step_cancel_created.
  - by eapply step_cancel_released.
Qed.

(** ** Arrival order *)

Lemma decoded_app l1 l2 : decoded (l1 ++ l2) = decoded l1 ++ decoded l2.
Proof. apply omap_app. Qed.

Lemma init_arrival_ok h inp : arrival_ok inp (init h inp).
Proof. by exists []. Qed.

Lemma filter_dispatched_one m :
  filter (λ m, is_dispatched m) [m] = if is_dispatched m then [m] else [].
Proof.
  destruct (is_dispatched m) eqn:E.
  - rewrite filter_cons_True; [done | by rewrite E].
  - rewrite filter_cons_False; [done | rewrite E; naive_solver].
Qed.

Lemma step_arrival_ok sent a s s' :
  arrival_ok sent s → sstep a s s' → arrival_ok sent s'.
Proof.
  unfold arrival_ok. intros (c & Hc & Hl & Hq) Hs.
  by_statement Hs; goal_cases.
  all: rewrite ?fmap_goto.
  all: try (by exists c).
  all: match goal with
       | |- ∃ _, _ ++ ?r :: _ = _ ∧ _ => exists (c ++ [r])
       end.
  all: rewrite <- ?app_assoc, ?decoded_app, ?reverse_app, ?filter_app, ?fmap_app; simpl.
  all: rewrite ?app_nil_r.
  all: split; [done|]; split; [by rewrite ?Hl|].
  all: rewrite ?filter_dispatched_one, ?Hq; try done.
  all: unfold is_dispatched, goes_async in *.
  all: try (destruct (protocolOp _); simplify_eq/=; try done).
  all: by rewrite app_nil_r.
Qed.

(** ** The shutdown signal *)

Lemma init_shutdown_ok h inp : shutdown_ok (init h inp).
Proof.
  split; simpl; try done.
  split; [done|]. intros H. by apply elem_of_nil in H.
Qed.

Lemma step_shutdown_ok a s s' :
  control_ok s → shutdown_ok s → sstep a s s' → shutdown_ok s'.
Proof.
  intros [Hin _] [Hl Hw Hd] Hs. unfold inline_ok in Hin.
  split; by_statement Hs.
  all: repeat match goal with
       | L : ?l !! ?k = Some ?x |- _ => learn (Hin k x L)
       end; clear Hin; use_pcs.
  all: goal_cases.
  all: rewrite ?elem_of_cons.
  all: try assumption.
  all: try (by intuition (try discriminate; eauto)).
  all: by split_pcs; intuition discriminate.
Qed.

(** ** Requests with distinct message ids *)

Lemma ids_goto (l : list activation) tid pc :
  (λ x, messageID (h_msg x)) <$> alter (set_h_pc pc) tid l =
  (λ x, messageID (h_msg x)) <$> l.
Proof.
  revert tid. induction l as [|x l IH]; intros [|tid]; simpl; try done.
  f_equal. apply IH.
Qed.

Lemma step_request_ids a s s' :
  sstep a s s' → ∃ l, request_ids s' = request_ids s ++ l.
Proof.
  unfold request_ids. intros Hs. by_statement Hs; goal_cases.
  all: rewrite ?ids_goto, ?fmap_app.
  all: try (by exists []; rewrite app_nil_r).
  all: by eexists.
Qed.

Lemma ids_distinct (l : list activation) j y tid h :
  NoDup ((λ x, messageID (h_msg x)) <$> l) →
  l !! j = Some y → l !! tid = Some h → j ≠ tid →
  messageID (h_msg y) ≠ messageID (h_msg h).
Proof.
  intros Hnd Lj Lt Hne E. apply Hne.
  eapply NoDup_lookup; [exact Hnd|..]; rewrite list_lookup_fmap.
  - by rewrite Lj.
  - rewrite Lt. simpl. by rewrite E.
Qed.

Lemma init_linked h inp : linked (init h inp).
Proof. intros _ tid x H. simpl in H. by rewrite lookup_nil in H. Qed.

Lemma step_linked a s s' : linked s → sstep a s s' → linked s'.
Proof.
  intros Hlk Hs Hnd'.
  assert (NoDup (request_ids s)) as Hnd.
  { destruct (step_request_ids _ _ _ Hs) as [l El]. rewrite El in Hnd'.
    by apply NoDup_app in Hnd' as [? _]. }
  specialize (Hlk Hnd). clear Hnd'. revert Hnd Hlk. unfold request_ids.
  by_statement Hs; goal_cases; intros Hnd Hlk; try assumption.
  all: intros j y Ly Hy.
  all: rewrite ?elem_of_union, ?elem_of_singleton.
  all: try (apply lookup_spawn in Ly as [Ly|[-> ->]]; [|by use_pcs]).
  all: try (apply lookup_goto in Ly as [[Hne Ly]|[-> (h' & Lh & ->)]]).
  all: simplify_eq/=.
  all: try (by use_pcs).
  all: try (by apply Hlk).
  all: try (by right; destruct rc; simpl; rewrite lookup_insert_eq).
  all: match goal with
       | L : _ !! ?k = Some ?x |- context [messageID (h_msg ?x) ] =>
           destruct (Hlk k x L) as [Hc|Hr]; [by use_pcs|by auto|]
       end.
  all: destruct rc as [r|]; simpl in *; [|by rewrite lookup_empty in Hr].
  all: try (by right).
  all: try (by left; left; apply elem_of_map_img; eauto).
  all: try (right; rewrite ?lookup_insert_ne, ?lookup_delete_ne; [done|..];
            intros E; by eapply (ids_distinct reqs j y tid h)).
  destruct (decide (messageID (h_msg y) = t)) as [E|Hne].
  - left; left. rewrite E in Hr. by simplify_eq.
  - right. by rewrite lookup_delete_ne.
Qed.

(** ** The invariants together *)

Lemma init_session_ok h inp : session_ok inp (init h inp).
Proof.
  split.
  - apply init_inv.
  - apply init_cancel_ok.
  - apply init_arrival_ok.
  - apply init_shutdown_ok.
  - apply init_linked.
Qed.

Lemma step_session_ok sent a s s' :
  session_ok sent s → step a s = Next s' → session_ok sent s'.
Proof.
  intros [Hi Hc Ha Hs Hl] Hst. pose proof (step_sstep _ _ _ Hst) as Hss.
  split.
  - by eapply step_inv.
  - eapply step_cancel_ok; [apply Hi | done | done].
  - by eapply step_arrival_ok.
  - eapply step_shutdown_ok; [apply Hi | done | done].
  - by eapply step_linked.
Qed.

Lemma run_session_ok sent acts s s' :
  session_ok sent s → run acts s = Next s' → session_ok sent s'.
Proof.
  revert s. induction acts as [|a acts IH]; intros s Hok Hr; simpl in Hr.
  - by simplify_eq.
  - destruct (step a s) as [s1| |why] eqn:E; try done.
    eapply IH; [|done]. by eapply step_session_ok.
Qed.

Lemma session_ok_reached h inp acts s :
  run acts (init h inp) = Next s → session_ok inp s.
Proof. apply run_session_ok, init_session_ok. Qed.

(** ** The close protocol, statement by statement *)





(** ** [close] comes to its end *)

Lemma work_left_app l h : work_left (l ++ [h]) = (work_left l + steps_left h)%nat.
Proof. induction l as [|x l IH]; simpl; [lia|]. rewrite IH. lia. Qed.






(** ** A handler that does not return *)





(** ** The log of [close] and the state *)










(** * Further properties of a session *)

(** ** What a session can panic on *)



(** ** The writer *)

(** X2. The writer goroutine puts the messages on the socket in the
    order in which they were put on the queue, each one once: what is
    on the wire is all that was enqueued, or all but the newest
    message, which the writer then holds. *)
Theorem writer_keeps_order h inp acts s :
  run acts (init h inp) = Next s →
  wire s = (enq s).*2 ∨
  ∃ o m rest, wpc s = WWrite m ∧ enq s = (o, m) :: rest ∧ wire s = rest.*2.
Proof.
  intros Hr. assert (inv s) as Hi by (eapply reachable_inv; by eexists).
  pose proof (inv_wire _ Hi) as Hw. unfold wire_ok in Hw.
  destruct (wpc s) as [| |m| |] eqn:E; try by left.
  right. destruct Hw as (o & rest & He & Hw). by exists o, m, rest.
Qed.

Lemma writer_keeps_order_witness :
  ∃ s, run bind_unbind_schedule
         (init true [ReadMessage bind1; ReadMessage unbind2]) = Next s ∧
       (wire s = (enq s).*2 ∨
        ∃ o m rest, wpc s = WWrite m ∧ enq s = (o, m) :: rest ∧ wire s = rest.*2).
Proof.
  eexists. split; [vm_compute; reflexivity|].
  eapply (writer_keeps_order true [ReadMessage bind1; ReadMessage unbind2]
            bind_unbind_schedule); vm_compute; reflexivity.
Defined.

(** ** Contexts *)

(** X3. The context of a request is never cancelled before the request
    has stored its cancel function, and it is cancelled by the time
    [ProcessRequestMessage] calls its deferred [wg.Done()]: no context
    outlives its request. *)
Theorem context_lifecycle h inp acts s tid :
  run acts (init h inp) = Next s →
  (tid ∈ cancelled s → ∃ x, requests s !! tid = Some x ∧ h_pc x ≠ HStart) ∧
  (∀ x, requests s !! tid = Some x → pending x = false → tid ∈ cancelled s).
Proof.
  intros Hr. destruct (so_cancel _ _ (session_ok_reached _ _ _ _ Hr)) as [Hc Hl].
  split; [apply Hc|]. intros x Hx Hp. apply (Hl _ _ Hx).
  unfold pending in Hp. destruct (h_pc x); auto; discriminate.
Qed.

Lemma context_lifecycle_witness :
  ∃ s, run bind_unbind_schedule
         (init true [ReadMessage bind1; ReadMessage unbind2]) = Next s ∧
       (0%nat ∈ cancelled s → ∃ x, requests s !! 0%nat = Some x ∧ h_pc x ≠ HStart) ∧
       (∀ x, requests s !! 0%nat = Some x → pending x = false → 0%nat ∈ cancelled s).
Proof.
  eexists. split; [vm_compute; reflexivity|].
  eapply (context_lifecycle true [ReadMessage bind1; ReadMessage unbind2]
            bind_unbind_schedule); vm_compute; reflexivity.
Defined.

(** ** The shutdown signal *)

(** X4. The notice of disconnection is put on the queue only after
    [Shutdown] has closed [chDone], and the read deadline a millisecond
    ahead is set only by the watch goroutine at the end of its shutdown
    branch or by [close]: a session of a server that is not shut down
    writes handler responses only and is never cut short in a read. *)
Theorem notice_needs_shutdown h inp acts s :
  run acts (init h inp) = Next s →
  (watch_notices s ≠ [] → chDone s = true ∧ EvShutdown ∈ trace s) ∧
  (EvShutdown ∉ trace s →
   ∀ o m, (o, m) ∈ enq s → ∃ tid, o = FromHandler tid) ∧
  (readDeadline s = true →
   EvShutdown ∈ trace s ∨ closing_down (dpc s) = true).
Proof.
  intros Hr. pose proof (session_ok_reached _ _ _ _ Hr) as [Hi _ _ [Hl Hw Hd] _].
  pose proof (inv_notice _ Hi) as Hn. unfold notice_ok in Hn.
  assert (watch_notices s ≠ [] → chDone s = true) as Hc.
  { intros Hne. apply Hw. rewrite Hn in Hne.
    destruct (spc s); simpl in *; done. }
  split_and!.
  - intros Hne. split; [by apply Hc|]. by apply Hl, Hc.
  - intros Hns o m Ho. destruct o as [|tid]; [|by eexists].
    exfalso. apply Hns, Hl, Hc. intros Hnil.
    assert (m ∈ watch_notices s) as Hm.
    { unfold watch_notices. clear -Ho.
      induction (enq s) as [|[[|k] x] l IH]; simpl.
      - by apply elem_of_nil in Ho.
      - apply elem_of_cons in Ho as [Ho|Ho]; [simplify_eq; apply list_elem_of_here|].
        by apply list_elem_of_further, IH.
      - apply elem_of_cons in Ho as [Ho|Ho]; [done|]. by apply IH. }
    rewrite Hnil in Hm. by apply elem_of_nil in Hm.
  - intros Hrd. destruct (Hd Hrd) as [Hs|Hp].
    + left. apply Hl, Hw. by rewrite Hs.
    + right. by destruct (dpc s).
Qed.

Lemma notice_needs_shutdown_witness :
  ∃ s, run graceful_shutdown_schedule (init true [ReadMessage search5]) = Next s ∧
       (watch_notices s ≠ [] → chDone s = true ∧ EvShutdown ∈ trace s) ∧
       (EvShutdown ∉ trace s →
        ∀ o m, (o, m) ∈ enq s → ∃ tid, o = FromHandler tid) ∧
       (readDeadline s = true →
        EvShutdown ∈ trace s ∨ closing_down (dpc s) = true).
Proof.
  eexists. split; [vm_compute; reflexivity|].
  eapply (notice_needs_shutdown true [ReadMessage search5]
            graceful_shutdown_schedule); vm_compute; reflexivity.
Defined.

(** ** Arrival order *)

Lemma elem_of_decoded m l : m ∈ decoded l → ReadMessage m ∈ l.
Proof.
  unfold decoded. rewrite list_elem_of_omap. intros (r & Hr & E).
  destruct r; by simplify_eq.
Qed.

(** X5. The session reads what the peer sends in order, without
    skipping or repeating anything: what it has consumed is a prefix of
    the input, the messages logged as received are the ones of that
    prefix that decode, and [ProcessRequestMessage] was called once for
    each of them other than abandon and unbind requests, in the order
    of arrival. *)
Theorem dispatch_in_arrival_order h inp acts s :
  run acts (init h inp) = Next s →
  ∃ consumed,
    inp = consumed ++ input s ∧
    reverse (received (trace s)) = decoded consumed ∧
    h_msg <$> requests s = filter (λ m, is_dispatched m) (decoded consumed).
Proof.
  intros Hr. destruct (so_arrival _ _ (session_ok_reached _ _ _ _ Hr))
    as (c & Hc & Hl & Hq).
  exists c. split_and!; [done| |done]. by rewrite Hl, reverse_involutive.
Qed.

Lemma dispatch_in_arrival_order_witness :
  ∃ s, run bind_unbind_schedule
         (init true [ReadMessage bind1; ReadMessage unbind2]) = Next s ∧
       ∃ consumed,
         [ReadMessage bind1; ReadMessage unbind2] = consumed ++ input s ∧
         reverse (received (trace s)) = decoded consumed ∧
         h_msg <$> requests s = filter (λ m, is_dispatched m) (decoded consumed).
Proof.
  eexists. split; [vm_compute; reflexivity|].
  eapply (dispatch_in_arrival_order true [ReadMessage bind1; ReadMessage unbind2]
            bind_unbind_schedule); vm_compute; reflexivity.
Defined.

(** X6. Whatever the session writes to the socket is the notice of
    disconnection or carries the message id, as a 32-bit [MessageID],
    of a message the peer has sent, and that message was neither an
    abandon nor an unbind request. *)
Theorem responses_carry_request_ids h inp acts s m :
  run acts (init h inp) = Next s → m ∈ wire s →
  m = shutdownNotice ∨
  ∃ req, ReadMessage req ∈ inp ∧ is_dispatched req = true ∧
         messageID m = int32 (messageID req).
Proof.
  intros Hr Hm. pose proof (session_ok_reached _ _ _ _ Hr) as [Hi _ Ha _ _].
  assert (∃ o, (o, m) ∈ enq s) as [o Ho].
  { pose proof (inv_wire _ Hi) as Hw. unfold wire_ok in Hw.
    destruct (wpc s).
    3: { destruct Hw as (o & rest & He & Hw). rewrite Hw in Hm.
         apply list_elem_of_fmap in Hm as ([o' m'] & -> & Hm).
         exists o'. rewrite He. by apply list_elem_of_further. }
    all: rewrite Hw in Hm; apply list_elem_of_fmap in Hm as ([o' m'] & -> & Hm);
         by exists o'. }
  pose proof (inv_origin _ Hi _ _ Ho) as Hor.
  destruct o as [|tid]; [by left|]. right.
  destruct Hor as (x & po & Hx & ->).
  destruct Ha as (c & Hc & _ & Hq).
  assert (h_msg x ∈ h_msg <$> requests s) as Hin.
  { apply list_elem_of_fmap. exists x. split; [done|].
    by eapply list_elem_of_lookup_2. }
  rewrite Hq in Hin. apply list_elem_of_filter in Hin as [Hd Hin].
  exists (h_msg x). split_and!.
  - rewrite Hc. apply elem_of_app. left. by apply elem_of_decoded.
  - by destruct (is_dispatched (h_msg x)).
  - done.
Qed.

Lemma responses_carry_request_ids_witness :
  ∃ s, run bind_unbind_schedule
         (init true [ReadMessage bind1; ReadMessage unbind2]) = Next s ∧
       (wrap {| w_messageID := 1 |} (BindResponse 0) = shutdownNotice ∨
        ∃ req, ReadMessage req ∈ [ReadMessage bind1; ReadMessage unbind2] ∧
               is_dispatched req = true ∧
               messageID (wrap {| w_messageID := 1 |} (BindResponse 0)) =
                 int32 (messageID req)).
Proof.
  eexists. split; [vm_compute; reflexivity|].
  eapply (responses_carry_request_ids true [ReadMessage bind1; ReadMessage unbind2]
            bind_unbind_schedule); [vm_compute; reflexivity|].
  vm_compute. apply list_elem_of_here.
Defined.

(** ** After the socket is closed *)

Lemma step_closed_final a s s' :
  inv s → rwc_open s = false → sstep a s s' →
  rwc_open s' = false ∧ enq s' = enq s ∧ wire s' = wire s ∧
  requests s' = requests s ∧ input s' = input s ∧
  requestCancel s' = requestCancel s ∧ cancelled s' = cancelled s.
Proof.
  intros Hi Hro Hs.
  destruct (inv_control _ Hi) as [Hin Hcl Hco Hwd Hrw _ Hwr Hwa Hde].
  destruct (inv_counts _ Hi) as [Hwg Hj]. clear Hi.
  revert Hin Hcl Hco Hwd Hrw Hwr Hwa Hde Hwg Hj Hro. unfold inline_ok.
  by_statement Hs; intros Hin Hcl Hco Hwd Hrw Hwr Hwa Hde Hwg Hj Hro;
    simplify_eq/=; try done.
  all: goal_cases; try done.
  all: exfalso.
  all: repeat match goal with
       | L : ?l !! ?k = Some ?x |- _ => learn (live_count_lookup l k x L)
       end; use_pcs.
  all: match goal with x : dispatcher_pc |- _ => destruct x end;
       try match goal with x : bool, H : context [chanOut_at ?y _] |- _ =>
             constr_eq x y; destruct x end;
       simpl in *; try done; specialize_trivial; lia.
Qed.

(** X7. Once [close] has closed the connection the session is over for
    the peer: whatever the goroutines that are left do, nothing more is
    put on the queue or on the wire, nothing more is read, no request
    is started and no context is touched. *)
Theorem closed_session_is_final h inp acts s acts' s' :
  run acts (init h inp) = Next s → rwc_open s = false →
  run acts' s = Next s' →
  rwc_open s' = false ∧ enq s' = enq s ∧ wire s' = wire s ∧
  requests s' = requests s ∧ input s' = input s ∧
  requestCancel s' = requestCancel s ∧ cancelled s' = cancelled s.
Proof.
  intros Hr. assert (inv s) as Hi by (eapply reachable_inv; by eexists).
  clear Hr. revert s Hi.
  induction acts' as [|a acts' IH]; intros s Hi Hro Hr'; simpl in Hr'.
  - by simplify_eq.
  - destruct (step a s) as [s1| |why] eqn:E; try done.
    destruct (step_closed_final _ _ _ Hi Hro (step_sstep _ _ _ E))
      as (Hro1 & H1 & H2 & H3 & H4 & H5 & H6).
    rewrite <- H1, <- H2, <- H3, <- H4, <- H5, <- H6.
    apply IH; [by eapply step_inv | done | done].
Qed.

Lemma closed_session_is_final_witness :
  ∃ s s', run bind_unbind_schedule
            (init true [ReadMessage bind1; ReadMessage unbind2]) = Next s ∧
          run [AShutdown] s = Next s' ∧
          rwc_open s' = false ∧ enq s' = enq s ∧ wire s' = wire s ∧
          requests s' = requests s ∧ input s' = input s ∧
          requestCancel s' = requestCancel s ∧ cancelled s' = cancelled s.
Proof.
  eexists. eexists. split; [vm_compute; reflexivity|].
  split; [vm_compute; reflexivity|].
  eapply (closed_session_is_final true [ReadMessage bind1; ReadMessage unbind2]
            bind_unbind_schedule _ [AShutdown]); vm_compute; reflexivity.
Defined.

(** ** Abandon requests and the registry *)



(** ** After the cancel loop of [close] *)

Lemma step_after_cancel_loop a s s' :
  control_ok s → (3 <=? close_progress (dpc s))%nat = true → sstep a s s' →
  (3 <=? close_progress (dpc s'))%nat = true ∧
  ∀ tid x', requests s' !! tid = Some x' → pending x' = true →
    (∃ x, requests s !! tid = Some x ∧ pending x = true) ∧
    (tid ∈ cancelled s' → tid ∈ cancelled s).
Proof.
  intros [Hin _ _ _ _ _ _ _ _] Hp Hs. revert Hin Hp. unfold inline_ok.
  by_statement Hs; intros Hin Hp; simplify_eq/=.
  all: repeat match goal with
       | L : ?l !! ?k = Some ?x |- _ => learn (Hin k x L)
       end; clear Hin.
  all: try match goal with x : dispatcher_pc |- _ => destruct x end;
       simpl in *; try discriminate.
  all: use_pcs; specialize_trivial; simplify_eq/=.
  all: repeat (match goal with
               | |- context [if ?x then _ else _] => destruct x eqn:?
               end; simpl in * ).
  all: repeat match goal with E : h_inline _ = _ |- _ => rewrite E in * end.
  all: specialize_trivial; simplify_eq/=.
  all: try (split; [done|]; by eauto).
  all: (split; [done|]).
  all: intros j y Ly Hy.
  all: rewrite ?elem_of_union, ?elem_of_singleton.
  all: try (apply lookup_goto in Ly as [[Hne Ly]|[-> (h' & Lh & ->)]]).
  all: simplify_eq/=.
  all: try (by unfold pending in *; use_pcs).
  all: try (split; [by eauto|]; intros [?|?]; done).
  all: try (split; [|done]; eexists; split; [done|];
            by unfold pending in *; use_pcs).

Qed.

Lemma run_pending_back acts s s' tid x' :
  inv s → (3 <=? close_progress (dpc s))%nat = true → run acts s = Next s' →
  requests s' !! tid = Some x' → pending x' = true →
  ∃ x, requests s !! tid = Some x ∧ pending x = true.
Proof.
  revert s. induction acts as [|a acts IH]; intros s Hi Hp Hr Hx Hpe;
    simpl in Hr.
  - simplify_eq. eauto.
  - destruct (step a s) as [s1| |why] eqn:E; try done.
    destruct (step_after_cancel_loop _ _ _ (inv_control _ Hi) Hp
                (step_sstep _ _ _ E)) as [Hp1 Hback].
    destruct (IH s1) as (x1 & Hx1 & Hpe1); try done.
    { by eapply step_inv. }
    by apply (Hback _ _ Hx1 Hpe1).
Qed.

Lemma run_after_cancel_loop acts s s' tid x' :
  inv s → (3 <=? close_progress (dpc s))%nat = true → run acts s = Next s' →
  requests s' !! tid = Some x' → pending x' = true →
  tid ∈ cancelled s' → tid ∈ cancelled s.
Proof.
  revert s. induction acts as [|a acts IH]; intros s Hi Hp Hr Hx Hpe Hc;
    simpl in Hr.
  - by simplify_eq.
  - destruct (step a s) as [s1| |why] eqn:E; try done.
    destruct (step_after_cancel_loop _ _ _ (inv_control _ Hi) Hp
                (step_sstep _ _ _ E)) as [Hp1 Hback].
    assert (inv s1) as Hi1 by (by eapply step_inv).
    destruct (run_pending_back _ _ _ _ _ Hi1 Hp1 Hr Hx Hpe) as (x1 & Hx1 & Hpe1).
    apply (Hback _ _ Hx1 Hpe1). by eapply IH.
Qed.

(** X9. Once [close] is past its cancel loop, nothing but a request's
    own deferred call cancels its context.  A request that stores its
    cancel function only after the loop is therefore never told to
    stop, and [close] waits at [wg.Wait()] until its handler returns on
    its own. *)
Theorem no_cancel_after_cancel_loop h inp acts s acts' s' tid x' :
  run acts (init h inp) = Next s → (3 ≤ close_progress (dpc s))%nat →
  run acts' s = Next s' →
  requests s' !! tid = Some x' → pending x' = true →
  tid ∈ cancelled s' → tid ∈ cancelled s.
Proof.
  intros Hr Hp. eapply run_after_cancel_loop.
  - eapply reachable_inv. by eexists.
  - by apply Nat.leb_le.
Qed.

Lemma no_cancel_after_cancel_loop_witness :
  ∃ s s', run late_registration_schedule
            (init true [ReadMessage search5; ReadMessage unbind2]) = Next s ∧
          run [ARequest 0] s = Next s' ∧
          (h_pc <$> requests s') = [HServing] ∧
          (0%nat ∈ cancelled s' → 0%nat ∈ cancelled s).
Proof.
  eexists. eexists. split; [vm_compute; reflexivity|].
  split; [vm_compute; reflexivity|]. split; [reflexivity|].
  eapply (no_cancel_after_cancel_loop true [ReadMessage search5; ReadMessage unbind2]
            late_registration_schedule _ [ARequest 0] _ 0);
    [vm_compute; reflexivity | simpl; lia | vm_compute; reflexivity
    | reflexivity | reflexivity].
Defined.

(** X10. As long as the peer has used no message id twice, cancellation
    reaches every request that is between its registration and its
    deferred delete: an abandon request for its id cancels its context,
    and so does the cancel loop of [close]. *)
Theorem cancellation_reaches_registered h inp acts s tid x :
  run acts (init h inp) = Next s → NoDup (request_ids s) →
  requests s !! tid = Some x → is_registered x = true →
  (∀ m rest, dpc s = DLoop → input s = ReadMessage m :: rest →
     protocolOp m = AbandonRequest (messageID (h_msg x)) →
     ∃ s', step ADispatcher s = Next s' ∧ tid ∈ cancelled s') ∧
  (dpc s = CCancel →
     ∃ s', step ADispatcher s = Next s' ∧ tid ∈ cancelled s').
Proof.
  intros Hr Hnd Hx Hg.
  pose proof (so_linked _ _ (session_ok_reached _ _ _ _ Hr) Hnd _ _ Hx Hg) as Hl.
  split.
  - intros m rest Hd Hi Hm. simpl. unfold dispatcher_step. rewrite Hd, Hi.
    eexists. split; [reflexivity|].
    unfold dispatch. simpl. rewrite Hm. unfold cancelMessageID, registry in *.
    simpl. destruct Hl as [Hc|Hl].
    + by destruct (default ∅ (requestCancel s) !! messageID (h_msg x)); simpl;
        [apply elem_of_union_r|].
    + rewrite Hl. simpl. apply elem_of_union_l. by apply elem_of_singleton.
  - intros Hd. simpl. unfold dispatcher_step. rewrite Hd.
    eexists. split; [reflexivity|]. simpl.
    destruct Hl as [Hc|Hl].
    + by apply elem_of_union_r.
    + apply elem_of_union_l. apply elem_of_map_img. eauto.
Qed.

Lemma cancellation_reaches_registered_witness :
  (∀ m rest, dpc (serving_search [ReadMessage abandon5]) = DLoop →
     input (serving_search [ReadMessage abandon5]) = ReadMessage m :: rest →
     protocolOp m = AbandonRequest 5 →
     ∃ s', step ADispatcher (serving_search [ReadMessage abandon5]) = Next s' ∧
           0%nat ∈ cancelled s') ∧
  (dpc (serving_search [ReadMessage abandon5]) = CCancel →
     ∃ s', step ADispatcher (serving_search [ReadMessage abandon5]) = Next s' ∧
           0%nat ∈ cancelled s').
Proof.
  eapply (cancellation_reaches_registered true
            [ReadMessage search5; ReadMessage abandon5]
            [ADispatcher; ADispatcher; ARequest 0]
            (serving_search [ReadMessage abandon5]) 0
            {| h_msg := search5; h_inline := false; h_pc := HServing |});
    [vm_compute; reflexivity | vm_compute; apply NoDup_singleton
    | vm_compute; reflexivity | vm_compute; reflexivity].
Defined.
